(** * SealGenerator: layout, rendering order and aging filter

    A shallow embedding of [src/seal-generator/src/SealGenerator.ts].

    - JavaScript numbers are modelled by [number]: the IEEE special values
      [NaN], [+Infinity], [-Infinity] and the finite values, the latter as
      exact rationals.  Arithmetic on finite values is exact (the rounding of
      binary64 is not modelled) and the two zeros are identified (as +0);
      everything else follows ECMAScript: division by zero, [0 * Infinity],
      [NaN] propagation, comparisons with [NaN], [Math.max]/[Math.min].
    - [Math.cos] and [Math.sin] are native functions whose results ECMAScript
      leaves to the implementation: they are the interface [MathLib].
    - The 2D context is a state machine: the current drawing state, the
      save/restore stack, the current path and the chronological list of
      draw calls, each recorded with the drawing state it was issued under.
    - [ImageData.data] is a flat list of bytes (a [Uint8ClampedArray]), read
      and written by index; [Math.random] is a stream of draws with a cursor. *)

From stdpp Require Import list.
From Stdlib Require Import ZArith QArith Qround Qabs Lia Lqa Bool.
From Stdlib Require Import Strings.String Strings.Ascii.
From Stdlib Require Import Reals Qreals Lra.

Local Open Scope Q_scope.

(** ** JavaScript numbers *)

Inductive number : Type :=
| NaN
| PInf
| NInf
| Fin (q : Q).

Declare Scope js_scope.
Delimit Scope js_scope with js.
Bind Scope js_scope with number.

Coercion Fin : Q >-> number.

(** Sign of a rational, as [comparison] with zero. *)
Definition Qsign (q : Q) : comparison := q ?= 0.

Definition nneg (a : number) : number :=
  match a with
  | NaN => NaN
  | PInf => NInf
  | NInf => PInf
  | Fin q => Fin (- q)
  end.

Definition nadd (a b : number) : number :=
  match a, b with
  | NaN, _ | _, NaN => NaN
  | PInf, NInf | NInf, PInf => NaN
  | PInf, _ | _, PInf => PInf
  | NInf, _ | _, NInf => NInf
  | Fin x, Fin y => Fin (x + y)
  end.

Definition nsub (a b : number) : number := nadd a (nneg b).

(** An infinity of the sign given by [c]; [NaN] for a zero factor. *)
Definition inf_of_sign (c : comparison) : number :=
  match c with
  | Gt => PInf
  | Lt => NInf
  | Eq => NaN
  end.

Definition nsign (a : number) : comparison :=
  match a with
  | NaN => Eq
  | PInf => Gt
  | NInf => Lt
  | Fin q => Qsign q
  end.

Definition sign_mul (c d : comparison) : comparison :=
  match c, d with
  | Eq, _ | _, Eq => Eq
  | Gt, Gt | Lt, Lt => Gt
  | Gt, Lt | Lt, Gt => Lt
  end.

Definition nmul (a b : number) : number :=
  match a, b with
  | NaN, _ | _, NaN => NaN
  | Fin x, Fin y => Fin (x * y)
  | _, _ => inf_of_sign (sign_mul (nsign a) (nsign b))
  end.

(** Division.  A finite non-zero number over zero is an infinity of the
    sign of the dividend, [0 / 0] is [NaN]. *)
Definition ndiv (a b : number) : number :=
  match a, b with
  | NaN, _ | _, NaN => NaN
  | PInf, Fin y => match Qsign y with Lt => NInf | _ => PInf end
  | NInf, Fin y => match Qsign y with Lt => PInf | _ => NInf end
  | Fin _, PInf | Fin _, NInf => Fin 0
  | Fin x, Fin y =>
      match Qsign y with
      | Eq => inf_of_sign (Qsign x)
      | _ => Fin (x / y)
      end
  | _, _ => NaN
  end.

(** [a < b]; false as soon as one side is [NaN]. *)
Definition nlt (a b : number) : bool :=
  match a, b with
  | NaN, _ | _, NaN => false
  | _, NInf => false
  | PInf, _ => false
  | NInf, _ => true
  | _, PInf => true
  | Fin x, Fin y => match x ?= y with Lt => true | _ => false end
  end.

Definition ngt (a b : number) : bool := nlt b a.

(** [Math.max] and [Math.min] of two arguments. *)
Definition Math_max (a b : number) : number :=
  match a, b with
  | NaN, _ | _, NaN => NaN
  | _, _ => if nlt a b then b else a
  end.

Definition Math_min (a b : number) : number :=
  match a, b with
  | NaN, _ | _, NaN => NaN
  | _, _ => if nlt b a then b else a
  end.

Definition Math_floor (a : number) : number :=
  match a with
  | Fin q => Fin (inject_Z (Qfloor q))
  | _ => a
  end.

(** Truncation towards zero, used by the remainder. *)
Definition Qtrunc (q : Q) : Z :=
  match Qsign q with
  | Lt => Qceiling q
  | _ => Qfloor q
  end.

(** The [%] operator: the remainder has the sign of the dividend. *)
Definition nmod (a b : number) : number :=
  match a, b with
  | NaN, _ | _, NaN => NaN
  | PInf, _ | NInf, _ => NaN
  | Fin _, PInf | Fin _, NInf => a
  | Fin x, Fin y =>
      match Qsign y with
      | Eq => NaN
      | _ => Fin (x - y * inject_Z (Qtrunc (x / y)))
      end
  end.

(** [x ** 2]. *)
Definition npow2 (a : number) : number := nmul a a.

Infix "+" := nadd : js_scope.
Infix "-" := nsub : js_scope.
Infix "*" := nmul : js_scope.
Infix "/" := ndiv : js_scope.
Infix "%%" := nmod (at level 40, left associativity) : js_scope.
Infix "<?" := nlt : js_scope.
Infix ">?" := ngt : js_scope.

(** A number literal that is an integer. *)
Definition int (z : Z) : number := Fin (inject_Z z).

(** [ToBoolean] on numbers: [0] and [NaN] are falsy. *)
Definition truthy (a : number) : bool :=
  match a with
  | NaN => false
  | Fin q => negb (Qeq_bool q 0)
  | _ => true
  end.

Definition is_finite (a : number) : bool :=
  match a with
  | Fin _ => true
  | _ => false
  end.

(** Equality of numbers as values: rationals up to [Qeq]. *)
Definition neq (a b : number) : Prop :=
  match a, b with
  | NaN, NaN | PInf, PInf | NInf, NInf => True
  | Fin x, Fin y => x == y
  | _, _ => False
  end.

Infix "=~" := neq (at level 70, no associativity).

(** [Math.PI]: the binary64 number 0x1.921fb54442d18p+1. *)
Definition Math_PI : number := Fin (884279719003555 # 281474976710656).

(** The native trigonometric functions.  ECMAScript fixes their value at
    [NaN] and leaves the finite results to the implementation. *)
Class MathLib : Type := {
  Math_cos : number -> number;
  Math_sin : number -> number;
  Math_cos_NaN : Math_cos NaN = NaN;
  Math_sin_NaN : Math_sin NaN = NaN
}.

(** ** Square roots

    [Math.sqrt] of a rational is irrational in general; its result is kept
    as the radicand and compared exactly ([root_gt_real] and [root_lt_real]
    relate the two comparisons to the real square root). *)

Inductive root : Type :=
| RootNaN
| RootInf
| Root (radicand : Q).

Definition Math_sqrt (a : number) : root :=
  match a with
  | NaN | NInf => RootNaN
  | PInf => RootInf
  | Fin q => match Qsign q with Lt => RootNaN | _ => Root q end
  end.

(** [sqrt d < b] *)
Definition root_lt (d : root) (b : number) : bool :=
  match d, b with
  | RootNaN, _ | _, NaN => false
  | _, NInf => false
  | RootInf, _ => false
  | Root _, PInf => true
  | Root q, Fin y =>
      match Qsign y with
      | Gt => match q ?= y * y with Lt => true | _ => false end
      | _ => false
      end
  end.

(** [sqrt d > a] *)
Definition root_gt (d : root) (a : number) : bool :=
  match d, a with
  | RootNaN, _ | _, NaN => false
  | _, PInf => false
  | _, NInf => true
  | RootInf, Fin _ => true
  | Root q, Fin x =>
      match Qsign x with
      | Lt => true
      | _ => match q ?= x * x with Gt => true | _ => false end
      end
  end.

(** ** Strings and configuration *)

(** A JavaScript string is a sequence of UTF-16 code units;
    [text.split("")] yields one element per code unit. *)
Definition JSString : Type := list N.

(** An ASCII literal as a JavaScript string. *)
Definition str (s : string) : JSString :=
  map N_of_ascii (list_ascii_of_string s).

Inductive BorderStyle : Type := solid | dashed.

(** [ToBoolean], the test behind [||]. *)
Class ToBoolean (A : Type) : Type := to_boolean : A -> bool.

#[export] Instance number_ToBoolean : ToBoolean number := truthy.
#[export] Instance JSString_ToBoolean : ToBoolean JSString :=
  fun s => match s with [] => false | _ => true end.
#[export] Instance BorderStyle_ToBoolean : ToBoolean BorderStyle :=
  fun _ => true.

(** [v || d] for an optional property [v]: [undefined] is falsy. *)
Definition or_default {A : Type} `{ToBoolean A} (v : option A) (d : A) : A :=
  match v with
  | Some x => if to_boolean x then x else d
  | None => d
  end.

(** [v !== undefined ? v : d] *)
Definition defined_or {A : Type} (v : option A) (d : A) : A :=
  match v with
  | Some x => x
  | None => d
  end.

(** The interface [SealOptions]: every property is optional. *)
Module SealOptions.
Record t : Type := mk {
  size : option number;
  color : option JSString;
  company : option JSString;
  title : option JSString;
  starSize : option number;
  companyFontSize : option number;
  titleFontSize : option number;
  rotation : option number;
  opacity : option number;
  borderWidth : option number;
  borderStyle : option BorderStyle;
  companyRadiusRatio : option number;
  titleRadiusRatio : option number;
  starBottomAngle : option number;
  showInnerCircle : option bool;
  aging : option bool;
  agingStrength : option number
}.

(** The argument default [options = {}]. *)
Definition empty : t :=
  mk None None None None None None None None None
     None None None None None None None None.
End SealOptions.

(** [Required<SealOptions>], the type of [this.options]. *)
Module Options.
Record t : Type := mk {
  size : number;
  color : JSString;
  company : JSString;
  title : JSString;
  starSize : number;
  companyFontSize : number;
  titleFontSize : number;
  rotation : number;
  opacity : number;
  borderWidth : number;
  borderStyle : BorderStyle;
  companyRadiusRatio : number;
  titleRadiusRatio : number;
  starBottomAngle : number;
  showInnerCircle : bool;
  aging : bool;
  agingStrength : number
}.
End Options.

(** "测试公司" *)
Definition default_company : JSString := [0x6D4B; 0x8BD5; 0x516C; 0x53F8]%N.

(** The constructor: [this.options = { size: options.size || 400, ... }]. *)
Definition SealGenerator (options : SealOptions.t) : Options.t :=
  {| Options.size := or_default (SealOptions.size options) (int 400);
     Options.color := or_default (SealOptions.color options) (str "#FF0000");
     Options.company := or_default (SealOptions.company options) default_company;
     Options.title := or_default (SealOptions.title options) (str " ");
     Options.starSize := or_default (SealOptions.starSize options) (int 100);
     Options.companyFontSize :=
       or_default (SealOptions.companyFontSize options) (int 24);
     Options.titleFontSize :=
       or_default (SealOptions.titleFontSize options) (int 20);
     Options.rotation := or_default (SealOptions.rotation options) (int 0);
     Options.opacity := or_default (SealOptions.opacity options) (Fin 1.0);
     Options.borderWidth := or_default (SealOptions.borderWidth options) (int 6);
     Options.borderStyle := or_default (SealOptions.borderStyle options) solid;
     Options.companyRadiusRatio :=
       or_default (SealOptions.companyRadiusRatio options) (Fin 0.75);
     Options.titleRadiusRatio :=
       or_default (SealOptions.titleRadiusRatio options) (Fin 0.33);
     Options.starBottomAngle :=
       or_default (SealOptions.starBottomAngle options) (int 108);
     Options.showInnerCircle :=
       defined_or (SealOptions.showInnerCircle options) true;
     Options.aging := defined_or (SealOptions.aging options) true;
     Options.agingStrength :=
       defined_or (SealOptions.agingStrength options) (Fin 0.13) |}.

(** ** The 2D drawing context

    The context records what the program asks of the canvas: property
    assignments are stored as given (the host's own validation of values
    is not modelled) and the current transformation is the list of the
    [translate]/[rotate] calls in force, innermost last. *)

Inductive Xform : Type :=
| Translate (x y : number)
| Rotate (angle : number).

Inductive TextAlign : Type := align_start | align_center.
Inductive TextBaseline : Type := baseline_alphabetic | baseline_middle.

(** A font shorthand such as [bold 24px SimHei]. *)
Record Font : Type := mkFont {
  font_bold : bool;
  font_px : number;
  font_family : JSString
}.

Record DrawState : Type := mkDrawState {
  globalAlpha : number;
  transform : list Xform;
  strokeStyle : JSString;
  fillStyle : JSString;
  lineWidth : number;
  shadowColor : JSString;
  shadowBlur : number;
  shadowOffsetX : number;
  shadowOffsetY : number;
  font : Font;
  textAlign : TextAlign;
  textBaseline : TextBaseline
}.

(** The state of a fresh context. *)
Definition initial_state : DrawState :=
  {| globalAlpha := int 1;
     transform := [];
     strokeStyle := str "#000000";
     fillStyle := str "#000000";
     lineWidth := int 1;
     shadowColor := str "rgba(0, 0, 0, 0)";
     shadowBlur := int 0;
     shadowOffsetX := int 0;
     shadowOffsetY := int 0;
     font := mkFont false (int 10) (str "sans-serif");
     textAlign := align_start;
     textBaseline := baseline_alphabetic |}.

(** A sub-path segment: [arc(x, y, radius, startAngle, endAngle)]. *)
Inductive PathSeg : Type :=
| Arc (x y radius startAngle endAngle : number).

(** A call that puts ink on (or clears) the surface, with the drawing
    state in force when it was issued. *)
Inductive DrawCall : Type :=
| ClearRect (x y w h : number)
| Stroke (path : list PathSeg) (st : DrawState)
| FillText (text : JSString) (x y : number) (st : DrawState)
| StrokeText (text : JSString) (x y : number) (st : DrawState).

Record Ctx : Type := mkCtx {
  state : DrawState;
  saved : list DrawState;
  path : list PathSeg;
  calls : list DrawCall
}.

(** [canvas.getContext("2d")] of a new canvas. *)
Definition new_ctx : Ctx := mkCtx initial_state [] [] [].

Definition with_state (f : DrawState -> DrawState) (c : Ctx) : Ctx :=
  mkCtx (f (state c)) (saved c) (path c) (calls c).

Definition emit (d : DrawState -> DrawCall) (c : Ctx) : Ctx :=
  mkCtx (state c) (saved c) (path c) (calls c ++ [d (state c)]).

Definition set_globalAlpha (v : number) : Ctx -> Ctx :=
  with_state (fun s =>
    mkDrawState v (transform s) (strokeStyle s) (fillStyle s) (lineWidth s)
      (shadowColor s) (shadowBlur s) (shadowOffsetX s) (shadowOffsetY s)
      (font s) (textAlign s) (textBaseline s)).

Definition push_xform (x : Xform) : Ctx -> Ctx :=
  with_state (fun s =>
    mkDrawState (globalAlpha s) (transform s ++ [x]) (strokeStyle s)
      (fillStyle s) (lineWidth s) (shadowColor s) (shadowBlur s)
      (shadowOffsetX s) (shadowOffsetY s) (font s) (textAlign s)
      (textBaseline s)).

Definition translate (x y : number) : Ctx -> Ctx := push_xform (Translate x y).
Definition rotate (angle : number) : Ctx -> Ctx := push_xform (Rotate angle).

Definition set_strokeStyle (v : JSString) : Ctx -> Ctx :=
  with_state (fun s =>
    mkDrawState (globalAlpha s) (transform s) v (fillStyle s) (lineWidth s)
      (shadowColor s) (shadowBlur s) (shadowOffsetX s) (shadowOffsetY s)
      (font s) (textAlign s) (textBaseline s)).

Definition set_fillStyle (v : JSString) : Ctx -> Ctx :=
  with_state (fun s =>
    mkDrawState (globalAlpha s) (transform s) (strokeStyle s) v (lineWidth s)
      (shadowColor s) (shadowBlur s) (shadowOffsetX s) (shadowOffsetY s)
      (font s) (textAlign s) (textBaseline s)).

Definition set_lineWidth (v : number) : Ctx -> Ctx :=
  with_state (fun s =>
    mkDrawState (globalAlpha s) (transform s) (strokeStyle s) (fillStyle s) v
      (shadowColor s) (shadowBlur s) (shadowOffsetX s) (shadowOffsetY s)
      (font s) (textAlign s) (textBaseline s)).

Definition set_shadowColor (v : JSString) : Ctx -> Ctx :=
  with_state (fun s =>
    mkDrawState (globalAlpha s) (transform s) (strokeStyle s) (fillStyle s)
      (lineWidth s) v (shadowBlur s) (shadowOffsetX s) (shadowOffsetY s)
      (font s) (textAlign s) (textBaseline s)).

Definition set_shadowBlur (v : number) : Ctx -> Ctx :=
  with_state (fun s =>
    mkDrawState (globalAlpha s) (transform s) (strokeStyle s) (fillStyle s)
      (lineWidth s) (shadowColor s) v (shadowOffsetX s) (shadowOffsetY s)
      (font s) (textAlign s) (textBaseline s)).

Definition set_shadowOffsetX (v : number) : Ctx -> Ctx :=
  with_state (fun s =>
    mkDrawState (globalAlpha s) (transform s) (strokeStyle s) (fillStyle s)
      (lineWidth s) (shadowColor s) (shadowBlur s) v (shadowOffsetY s)
      (font s) (textAlign s) (textBaseline s)).

Definition set_shadowOffsetY (v : number) : Ctx -> Ctx :=
  with_state (fun s =>
    mkDrawState (globalAlpha s) (transform s) (strokeStyle s) (fillStyle s)
      (lineWidth s) (shadowColor s) (shadowBlur s) (shadowOffsetX s) v
      (font s) (textAlign s) (textBaseline s)).

Definition set_font (v : Font) : Ctx -> Ctx :=
  with_state (fun s =>
    mkDrawState (globalAlpha s) (transform s) (strokeStyle s) (fillStyle s)
      (lineWidth s) (shadowColor s) (shadowBlur s) (shadowOffsetX s)
      (shadowOffsetY s) v (textAlign s) (textBaseline s)).

Definition set_textAlign (v : TextAlign) : Ctx -> Ctx :=
  with_state (fun s =>
    mkDrawState (globalAlpha s) (transform s) (strokeStyle s) (fillStyle s)
      (lineWidth s) (shadowColor s) (shadowBlur s) (shadowOffsetX s)
      (shadowOffsetY s) (font s) v (textBaseline s)).

Definition set_textBaseline (v : TextBaseline) : Ctx -> Ctx :=
  with_state (fun s =>
    mkDrawState (globalAlpha s) (transform s) (strokeStyle s) (fillStyle s)
      (lineWidth s) (shadowColor s) (shadowBlur s) (shadowOffsetX s)
      (shadowOffsetY s) (font s) (textAlign s) v).

(** [save] pushes the drawing state (not the path); [restore] pops it and
    does nothing on an empty stack. *)
Definition save (c : Ctx) : Ctx :=
  mkCtx (state c) (state c :: saved c) (path c) (calls c).

Definition restore (c : Ctx) : Ctx :=
  match saved c with
  | [] => c
  | s :: rest => mkCtx s rest (path c) (calls c)
  end.

Definition beginPath (c : Ctx) : Ctx :=
  mkCtx (state c) (saved c) [] (calls c).

Definition arc (x y radius startAngle endAngle : number) (c : Ctx) : Ctx :=
  mkCtx (state c) (saved c)
        (path c ++ [Arc x y radius startAngle endAngle]) (calls c).

Definition stroke (c : Ctx) : Ctx := emit (Stroke (path c)) c.

Definition fillText (text : JSString) (x y : number) : Ctx -> Ctx :=
  emit (FillText text x y).

Definition strokeText (text : JSString) (x y : number) : Ctx -> Ctx :=
  emit (StrokeText text x y).

Definition clearRect (x y w h : number) : Ctx -> Ctx :=
  emit (fun _ => ClearRect x y w h).

(** Statement sequencing on the context. *)
Definition seq_ctx (f g : Ctx -> Ctx) : Ctx -> Ctx := fun c => g (f c).
Declare Scope ctx_scope.
Delimit Scope ctx_scope with ctx.
Notation "f ;; g" := (seq_ctx f g%ctx)
  (at level 100, g at level 200, right associativity) : ctx_scope.

Definition skip : Ctx -> Ctx := fun c => c.

Local Open Scope js_scope.
Local Open Scope ctx_scope.

(** ** The renderer *)

(** [chars.forEach((char, i) => ...)], from index [i]. *)
Fixpoint forEach {A : Type} (f : A -> nat -> Ctx -> Ctx) (l : list A)
    (i : nat) : Ctx -> Ctx :=
  match l with
  | [] => skip
  | a :: rest => f a i ;; forEach f rest (S i)
  end.

(** [text.split("")] *)
Definition split_chars (text : JSString) : list JSString :=
  map (fun u => [u]) text.

(** [chars.length] as a number. *)
Definition length_of {A : Type} (l : list A) : number :=
  int (Z.of_nat (List.length l)).

Definition SimHei : JSString := str "SimHei".

(** "★" *)
Definition star : JSString := [0x2605%N].

Section Renderer.
Context `{MathLib}.

(** The loop of the dashed border,
    [for (let angle = 0; angle < 360; angle += 10)], from [angle] on. *)
Fixpoint dashes (fuel : nat) (radius angle : number) : Ctx -> Ctx :=
  match fuel with
  | O => skip
  | S fuel' =>
      if angle <? 360 then
        let startAngle := (angle * Math_PI) / 180 in
        let endAngle := ((angle + 5) * Math_PI) / 180 in
        beginPath ;;
        arc 0 0 radius startAngle endAngle ;;
        stroke ;;
        dashes fuel' radius (angle + 10)
      else skip
  end.

(** Enough fuel for the 36 rounds of the loop and its last test. *)
Definition dashes_fuel : nat := 37.

Definition drawBorder (this : Options.t) (radius : number) (color : JSString)
    (width : number) (style : BorderStyle) : Ctx -> Ctx :=
  save ;;
  beginPath ;;
  set_strokeStyle color ;;
  set_lineWidth width ;;
  set_shadowColor (str "rgba(0, 0, 0, 0.08)") ;;
  set_shadowBlur 2 ;;
  match style with
  | solid =>
      arc 0 0 radius 0 (Math_PI * 2) ;;
      stroke
  | dashed => dashes dashes_fuel radius 0
  end ;;
  restore ;;
  if Options.showInnerCircle this then
    save ;;
    beginPath ;;
    set_strokeStyle color ;;
    set_lineWidth (Math_max 2 (width * 0.5)) ;;
    set_shadowBlur 0 ;;
    arc 0 0 (radius - 12) 0 (Math_PI * 2) ;;
    stroke ;;
    restore
  else skip.

Definition drawStar (x y size : number) (color : JSString) : Ctx -> Ctx :=
  save ;;
  set_font (mkFont true size SimHei) ;;
  set_textAlign align_center ;;
  set_textBaseline baseline_middle ;;
  set_shadowColor (str "rgba(0, 0, 0, 0.12)") ;;
  set_shadowBlur 2 ;;
  set_fillStyle color ;;
  fillText star x y ;;
  set_lineWidth 2 ;;
  set_strokeStyle (str "#a00000") ;;
  set_shadowBlur 0 ;;
  strokeText star x y ;;
  restore.

(** The angle of glyph [i] in degrees, [startAngle + i * angleStep]. *)
Definition glyphDegrees (startAngle angleStep : number) (i : nat) : number :=
  startAngle + int (Z.of_nat i) * angleStep.

(** The body of the [forEach] of [drawCompanyName]. *)
Definition drawGlyph (radius radiusRatio startAngle angleStep : number)
    (color : JSString) (char : JSString) (i : nat) : Ctx -> Ctx :=
  let angle := (glyphDegrees startAngle angleStep i * Math_PI) / 180 in
  let x := radius * radiusRatio * Math_cos angle in
  let y := radius * radiusRatio * Math_sin angle in
  save ;;
  translate x y ;;
  (let rotationAngle := angle + Math_PI / 2 in
   rotate rotationAngle) ;;
  set_shadowColor (str "rgba(0, 0, 0, 0.10)") ;;
  set_shadowBlur 2 ;;
  set_shadowOffsetX 1 ;;
  set_shadowOffsetY 1 ;;
  set_lineWidth 1.2 ;;
  set_strokeStyle color ;;
  strokeText char 0 0 ;;
  fillText char 0 0 ;;
  restore.

Definition totalAngle : number := 240.

(** [totalAngle / (chars.length - 1)] *)
Definition angleStep_of (chars : list JSString) : number :=
  totalAngle / (length_of chars - 1).

(** [-90 - totalAngle / 2] *)
Definition startAngle : number := nneg 90 - totalAngle / 2.

Definition drawCompanyName (text : JSString) (radius fontSize : number)
    (color : JSString) (radiusRatio : number) : Ctx -> Ctx :=
  let chars := split_chars text in
  let angleStep := angleStep_of chars in
  set_font (mkFont true fontSize SimHei) ;;
  set_fillStyle color ;;
  set_textAlign align_center ;;
  set_textBaseline baseline_middle ;;
  forEach (drawGlyph radius radiusRatio startAngle angleStep color) chars 0.

Definition drawTitle (text : JSString) (radius fontSize : number)
    (color : JSString) (radiusRatio : number) : Ctx -> Ctx :=
  set_font (mkFont false fontSize SimHei) ;;
  set_fillStyle color ;;
  set_textAlign align_center ;;
  set_textBaseline baseline_middle ;;
  set_shadowColor (str "rgba(0, 0, 0, 0.1)") ;;
  set_shadowBlur 2 ;;
  set_shadowOffsetX 1 ;;
  set_shadowOffsetY 1 ;;
  fillText text 0 (radius * radiusRatio).

(** The drawing part of [generate]: everything up to the aging test. *)
Definition paint (this : Options.t) : Ctx :=
  let size := Options.size this in
  let color := Options.color this in
  (clearRect 0 0 size size ;;
   set_globalAlpha (Options.opacity this) ;;
   translate (size / 2) (size / 2) ;;
   rotate ((Options.rotation this * Math_PI) / 180) ;;
   drawBorder this (size / 2 - 20) color (Options.borderWidth this)
     (Options.borderStyle this) ;;
   drawStar 0 0 (Options.starSize this) color ;;
   drawCompanyName (Options.company this) (size / 2 - 20)
     (Options.companyFontSize this) color (Options.companyRadiusRatio this) ;;
   drawTitle (Options.title this) (size / 2 - 20)
     (Options.titleFontSize this) color (Options.titleRadiusRatio this))
    new_ctx.

End Renderer.

Local Close Scope ctx_scope.

(** ** The aging filter *)

(** [Math.random]: a stream of draws and the number of draws taken. *)
Record Rng : Type := mkRng {
  cursor : nat;
  draws : nat -> Q
}.

(** The store of [addAgingEffect]: the bytes of [imageData.data], the
    random source, and the list of the element writes made so far, oldest
    first, as (index, byte stored). *)
Record Aging : Type := mkAging {
  data : list Z;
  rng : Rng;
  writes : list (nat * Z)
}.

Definition St (A : Type) : Type := Aging -> A * Aging.

#[export] Instance St_ret : MRet St := fun A a s => (a, s).
#[export] Instance St_bind : MBind St :=
  fun A B f m s => let (a, s') := m s in f a s'.

(** Conversion of a number stored into a [Uint8ClampedArray]: clamp to
    [0, 255] and round to the nearest integer, ties to even. *)
Definition ToUint8Clamp (v : number) : Z :=
  match v with
  | NaN | NInf => 0
  | PInf => 255
  | Fin q =>
      if Qle_bool q 0 then 0%Z
      else if Qle_bool 255 q then 255%Z
      else
        let f := Qfloor q in
        match (q ?= inject_Z f + 0.5)%Q with
        | Gt => (f + 1)%Z
        | Lt => f
        | Eq => if Z.even f then f else (f + 1)%Z
        end
  end.

(** [data[i]] as a number; out of range it is [undefined], which every
    use below converts to [NaN]. *)
Definition rd (i : nat) : St number :=
  fun s =>
    (match data s !! i with
     | Some v => int v
     | None => NaN
     end, s).

(** [data[i] = v]; a write out of range leaves the array unchanged. *)
Definition wr (i : nat) (v : number) : St unit :=
  fun s =>
    let b := ToUint8Clamp v in
    (tt, mkAging (<[i := b]> (data s)) (rng s) (writes s ++ [(i, b)])).

Definition Math_random : St number :=
  fun s =>
    let g := rng s in
    (Fin (draws g (cursor g)),
     mkAging (data s) (mkRng (S (cursor g)) (draws g)) (writes s)).

Record FadeArea : Type := mkFadeArea {
  fa_x : number;
  fa_y : number;
  fa_rx : number;
  fa_ry : number;
  fa_fade : number
}.

(** The callback of [Array.from({ length: 2 }, () => ({ x, y, rx, ry, fade }))]. *)
Definition newFadeArea (cx cy radius : number) : St FadeArea :=
  r1 ← Math_random;
  r2 ← Math_random;
  r3 ← Math_random;
  r4 ← Math_random;
  r5 ← Math_random;
  mret {| fa_x := cx + (r1 - 0.5) * radius * 0.7;
          fa_y := cy + (r2 - 0.5) * radius * 0.7;
          fa_rx := 30 + r3 * 30;
          fa_ry := 18 + r4 * 18;
          fa_fade := 0.5 + r5 * 0.2 |}.

(** [for (const area of fadeAreas) body] *)
Fixpoint forOf {A : Type} (l : list A) (body : A -> St unit) : St unit :=
  match l with
  | [] => mret tt
  | a :: rest => body a;; forOf rest body
  end.

(** 1. the overall fade of the colour channels *)
Definition globalFade (strength : number) (i : nat) : St unit :=
  r ← rd i;
  wr i (r * (0.93 - strength * 0.2));;
  g ← rd (i + 1);
  wr (i + 1) (g * (0.93 - strength * 0.1));;
  b ← rd (i + 2);
  wr (i + 2) (b * (0.93 - strength * 0.1)).

(** 2. grain noise *)
Definition grainNoise (strength : number) (i : nat) : St unit :=
  u ← Math_random;
  let noise := (u - 0.5) * 255 * strength * 0.7 in
  r ← rd i;
  wr i (Math_max 0 (Math_min 255 (r + noise)));;
  g ← rd (i + 1);
  wr (i + 1) (Math_max 0 (Math_min 255 (g + noise * 0.5)));;
  b ← rd (i + 2);
  wr (i + 2) (Math_max 0 (Math_min 255 (b + noise * 0.5))).

(** The alpha erasure of the edge erosion. *)
Definition eraseAlpha (i : nat) : St unit :=
  a ← rd (i + 3);
  u ← Math_random;
  wr (i + 3) (a * (0.5 + u * 0.3)).

(** The darkening of the edge erosion. *)
Definition darken (i : nat) : St unit :=
  r ← rd i;
  wr i (r * 0.7);;
  g ← rd (i + 1);
  wr (i + 1) (g * 0.7);;
  b ← rd (i + 2);
  wr (i + 2) (b * 0.7).

(** 3. edge erosion, within 8px of the border radius *)
Definition edgeErosion (strength radius : number) (dist : root) (i : nat)
    : St unit :=
  if root_gt dist (radius - 8) && root_lt dist (radius + 8) then
    u ← Math_random;
    if u <? 0.13 * strength then eraseAlpha i
    else
      u' ← Math_random;
      if u' <? 0.18 * strength then darken i
      else mret tt
  else mret tt.

(** The test of the local fade: [(x, y)] is inside the ellipse of [area]. *)
Definition inside (x y : number) (area : FadeArea) : bool :=
  let dx := (x - fa_x area) / fa_rx area in
  let dy := (y - fa_y area) / fa_ry area in
  dx * dx + dy * dy <? 1.

(** 4. the local fade of one area *)
Definition localFade (x y : number) (i : nat) (area : FadeArea) : St unit :=
  if inside x y area then
    r ← rd i;
    wr i (r * fa_fade area);;
    g ← rd (i + 1);
    wr (i + 1) (g * fa_fade area);;
    b ← rd (i + 2);
    wr (i + 2) (b * fa_fade area);;
    a ← rd (i + 3);
    u ← Math_random;
    wr (i + 3) (a * (0.92 + u * 0.06))
  else mret tt.

(** 5. the slight change of transparency *)
Definition alphaJitter (i : nat) : St unit :=
  a ← rd (i + 3);
  u ← Math_random;
  wr (i + 3) (Math_max 0 (Math_min 255 (a * (0.97 + u * 0.06)))).

(** The coordinates of the pixel whose bytes start at [i]. *)
Definition pixel_x (size : number) (i : nat) : number :=
  (int (Z.of_nat i) / 4) %% size.

Definition pixel_y (size : number) (i : nat) : number :=
  Math_floor (int (Z.of_nat i) / 4 / size).

(** The body of the pixel loop. *)
Definition agePixel (size strength : number) (fadeAreas : list FadeArea)
    (i : nat) : St unit :=
  let cx := size / 2 in
  let cy := size / 2 in
  let radius := size / 2 - 20 in
  let x := pixel_x size i in
  let y := pixel_y size i in
  let dist := Math_sqrt (npow2 (x - cx) + npow2 (y - cy)) in
  a ← rd (i + 3);
  if a >? 0 then
    globalFade strength i;;
    grainNoise strength i;;
    edgeErosion strength radius dist i;;
    forOf fadeAreas (localFade x y i);;
    alphaJitter i
  else mret tt.

(** [for (let i = 0; i < data.length; i += 4) body], from [i] on. *)
Fixpoint pixelLoop (fuel : nat) (body : nat -> St unit) (i : nat) : St unit :=
  match fuel with
  | O => mret tt
  | S fuel' =>
      fun s =>
        if (i <? List.length (data s))%nat then
          (body i;; pixelLoop fuel' body (i + 4)%nat) s
        else (tt, s)
  end.

(** The whole loop.  It advances by 4, so a fuel of [data.length + 1]
    lets it run to its exit test. *)
Definition forPixels (body : nat -> St unit) : St unit :=
  fun s => pixelLoop (S (List.length (data s))) body 0%nat s.

(** [addAgingEffect], on the bytes that [getImageData] returned; the
    resulting bytes are what [putImageData] receives. *)
Definition addAgingEffect (size strength : number) : St unit :=
  let cx := size / 2 in
  let cy := size / 2 in
  let radius := size / 2 - 20 in
  area1 ← newFadeArea cx cy radius;
  area2 ← newFadeArea cx cy radius;
  let fadeAreas := [area1; area2] in
  forPixels (agePixel size strength fadeAreas).

(** ** [generate] *)

(** What one call of [generate] leaves behind: the file written, the value
    the promise resolves to, and the random source after the call. *)
Record Generated : Type := mkGenerated {
  written_path : JSString;
  written_bytes : list Byte.byte;
  returned : JSString;
  rng_after : Rng
}.

Section Generate.
Context `{MathLib}.

(** The canvas library, outside the repository: the RGBA bytes of a
    [size] x [size] surface after the calls of a context
    ([getImageData(0, 0, size, size)]), and the PNG encoder behind
    [canvas.toBuffer("image/png")]. *)
Variable surface : number -> Ctx -> list Z.
Variable toBuffer : list Z -> list Byte.byte.

Definition generate (this : Options.t) (outputPath : JSString) (g : Rng)
    : Generated :=
  let size := Options.size this in
  let ctx := paint this in
  let pixels := surface size ctx in
  let aged :=
    (if Options.aging this
     then addAgingEffect size (Options.agingStrength this)
     else mret tt) (mkAging pixels g []) in
  let buffer := toBuffer (data (snd aged)) in
  mkGenerated outputPath buffer outputPath (rng (snd aged)).

End Generate.

(** ** The batch driver

    [main] reads the names from [1.txt] and renders one seal per name.  The
    file system is outside the repository: the content of the file, if it
    exists, is an argument, [path.join(__dirname, ...)] is a function, and
    what [main] leaves behind is the list of the files written, the lines
    logged and the random source. *)

(** The code units that [trim] removes: white space and line terminators. *)
Definition whitespace_units : list N :=
  [0x9; 0xA; 0xB; 0xC; 0xD; 0x20; 0xA0; 0x1680; 0x2000; 0x2001; 0x2002;
   0x2003; 0x2004; 0x2005; 0x2006; 0x2007; 0x2008; 0x2009; 0x200A; 0x2028;
   0x2029; 0x202F; 0x205F; 0x3000; 0xFEFF]%N.

Definition is_whitespace (u : N) : bool := existsb (N.eqb u) whitespace_units.

Fixpoint trimStart (s : JSString) : JSString :=
  match s with
  | [] => []
  | u :: rest => if is_whitespace u then trimStart rest else s
  end.

Fixpoint trimEnd (s : JSString) : JSString :=
  match s with
  | [] => []
  | u :: rest =>
      match trimEnd rest with
      | [] => if is_whitespace u then [] else [u]
      | kept => u :: kept
      end
  end.

(** [s.trim()] *)
Definition trim (s : JSString) : JSString := trimEnd (trimStart s).

(** [s.split(sep)] for a separator of one code unit: the pieces between
    the separators, one more than there are separators. *)
Fixpoint split_on (sep : N) (s : JSString) : list JSString :=
  match s with
  | [] => [[]]
  | u :: rest =>
      if N.eqb u sep then [] :: split_on sep rest
      else
        match split_on sep rest with
        | piece :: pieces => (u :: piece) :: pieces
        | [] => [[u]]
        end
  end.

(** "," *)
Definition comma : N := 0x2C%N.

(** [content.split(",").map((s) => s.trim()).filter(Boolean)] *)
Definition parseCompanies (content : JSString) : list JSString :=
  List.filter to_boolean (map trim (split_on comma content)).

(** The character class of the regular expression of [safeName].  It is
    written with doubled backslashes, and in a regular expression literal a
    doubled backslash is one backslash: the class holds the backslash
    (twice), the slash, the colon, the asterisk, the question mark, the
    double quote, the angle brackets, the bar, and the letter s, not the
    white space class. *)
Definition replaced_units : list N :=
  [0x5C; 0x2F; 0x3A; 0x2A; 0x3F; 0x22; 0x3C; 0x3E; 0x7C; 0x5C; 0x73]%N.

Definition is_replaced (u : N) : bool := existsb (N.eqb u) replaced_units.

(** "_" *)
Definition underscore : N := 0x5F%N.

(** [company.replace(regexp, "_")] with the global flag: every code unit
    of the class becomes an underscore. *)
Definition safeName (company : JSString) : JSString :=
  map (fun u => if is_replaced u then underscore else u) company.

(** [`../output/${safeName}.png`] *)
Definition outputName (company : JSString) : JSString :=
  str "../output/" ++ safeName company ++ str ".png".

(** "河北理铭科技有限公司" *)
Definition fallback_company : JSString :=
  [0x6CB3; 0x5317; 0x7406; 0x94ED; 0x79D1; 0x6280; 0x6709; 0x9650; 0x516C;
   0x53F8]%N.

(** The options both branches of [main] pass to the constructor. *)
Definition batchOptions (company : JSString) : SealOptions.t :=
  {| SealOptions.company := Some company;
     SealOptions.title := Some (str " ");
     SealOptions.size := Some (int 452);
     SealOptions.color := Some (str "#d20000");
     SealOptions.rotation := Some (int 0);
     SealOptions.opacity := Some (int 1);
     SealOptions.borderStyle := Some solid;
     SealOptions.starSize := Some (int 150);
     SealOptions.companyFontSize := Some (int 60);
     SealOptions.titleFontSize := Some (int 28);
     SealOptions.borderWidth := Some (int 7);
     SealOptions.companyRadiusRatio := Some (Fin 0.75);
     SealOptions.titleRadiusRatio := Some (Fin 0.3);
     SealOptions.starBottomAngle := Some (int 108);
     SealOptions.showInnerCircle := Some false;
     SealOptions.aging := Some false;
     SealOptions.agingStrength := Some (Fin 0.13) |}.

(** "印章已生成: " and "未检测到公司名，已生成默认章: " *)
Definition generated_message : JSString :=
  [0x5370; 0x7AE0; 0x5DF2; 0x751F; 0x6210; 0x3A; 0x20]%N.

Definition fallback_message : JSString :=
  [0x672A; 0x68C0; 0x6D4B; 0x5230; 0x516C; 0x53F8; 0x540D; 0xFF0C; 0x5DF2;
   0x751F; 0x6210; 0x9ED8; 0x8BA4; 0x7AE0; 0x3A; 0x20]%N.

(** What a run of [main] leaves behind. *)
Record BatchRun : Type := mkBatchRun {
  run_files : list Generated;
  run_console : list JSString;
  run_rng : Rng
}.

Section Batch.
Context `{MathLib}.
Variable surface : number -> Ctx -> list Z.
Variable toBuffer : list Z -> list Byte.byte.

(** [path.join(__dirname, relative)] *)
Variable path_join : JSString -> JSString.

(** The body of [for (const company of companies)], from the files and
    lines so far. *)
Fixpoint forCompanies (companies : list JSString) (run : BatchRun)
    : BatchRun :=
  match companies with
  | [] => run
  | company :: rest =>
      let generator := SealGenerator (batchOptions company) in
      let outputPath := path_join (outputName company) in
      let file :=
        generate surface toBuffer generator outputPath (run_rng run) in
      forCompanies rest
        (mkBatchRun (run_files run ++ [file])
           (run_console run ++ [generated_message ++ outputPath])
           (rng_after file))
  end.

(** [main]; [file] is the content of [1.txt], [None] if it does not exist. *)
Definition main (file : option JSString) (g : Rng) : BatchRun :=
  let companies :=
    match file with
    | Some content => parseCompanies content
    | None => []
    end in
  if (0 <? List.length companies)%nat then
    forCompanies companies (mkBatchRun [] [] g)
  else
    let generator := SealGenerator (batchOptions fallback_company) in
    let outputPath := path_join (str "../output/default.png") in
    let file := generate surface toBuffer generator outputPath g in
    mkBatchRun [file] [fallback_message ++ outputPath] (rng_after file).

End Batch.

(** ** A library instance to run the model

    [cos] and [sin] by their power series cut after twelve terms: an
    approximation in the sense of ECMAScript, exact at 0. *)

Fixpoint series (n : nat) (term x2 : Q) (k : Z) : Q :=
  match n with
  | O => 0%Q
  | S n' =>
      (term + series n' (- term * x2 / inject_Z ((k + 1) * (k + 2))) x2 (k + 2))%Q
  end.

Definition trig (start : Q -> Q) (k : Z) (a : number) : number :=
  match a with
  | Fin x => Fin (Qred (series 12 (start x) (x * x)%Q k))
  | _ => NaN
  end.

#[export] Instance series_MathLib : MathLib :=
  {| Math_cos := trig (fun _ => 1%Q) 0;
     Math_sin := trig (fun x => x) 1;
     Math_cos_NaN := eq_refl;
     Math_sin_NaN := eq_refl |}.

(** * Vocabulary of the properties *)

(** ** Options used as examples *)

(** The options [{ opacity: 0, rotation: 0, agingStrength: 0 }]. *)
Definition transparent_options : SealOptions.t :=
  SealOptions.mk None None None None None None None
    (Some (int 0)) (Some (int 0)) None None None None None None None
    (Some (int 0)).

(** The options [{ company: "" }]. *)
Definition empty_company_options : SealOptions.t :=
  SealOptions.mk None None (Some []) None None None None None None
    None None None None None None None None.

(** The options [{ aging: false }]. *)
Definition plain_options : SealOptions.t :=
  SealOptions.mk None None None None None None None None None
    None None None None None None (Some false) None.

(** ** Resolution of an option *)

(** An option resolved with [||]: the default when it is absent or falsy,
    the caller's value when it is truthy. *)
Definition truthy_or_default {A : Type} `{ToBoolean A} (given : option A)
    (default resolved : A) : Prop :=
  (given = None -> resolved = default)
  /\ (forall v, given = Some v -> to_boolean v = true -> resolved = v)
  /\ (forall v, given = Some v -> to_boolean v = false -> resolved = default).

(** The part of the above that does not speak of falsy values. *)
Definition truthy_kept {A : Type} `{ToBoolean A} (given : option A)
    (default resolved : A) : Prop :=
  (given = None -> resolved = default)
  /\ (forall v, given = Some v -> to_boolean v = true -> resolved = v).

(** An option resolved with [!== undefined]: the default exactly when it is
    absent. *)
Definition set_or_default {A : Type} (given : option A)
    (default resolved : A) : Prop :=
  (given = None -> resolved = default)
  /\ (forall v, given = Some v -> resolved = v).

(** ** Expected drawing states and calls *)

(** Degrees to radians, as the source converts them. *)
Definition radians (deg : number) : number := ((deg * Math_PI) / 180)%js.

(** The drawing state of the outer ring. *)
Definition outerState (color : JSString) (width : number) (s : DrawState)
    : DrawState :=
  mkDrawState (globalAlpha s) (transform s) color (fillStyle s) width
    (str "rgba(0, 0, 0, 0.08)") 2 (shadowOffsetX s) (shadowOffsetY s)
    (font s) (textAlign s) (textBaseline s).

(** The drawing state of the inner ring: the outer state was popped by
    [restore], so the shadow colour is the one before [drawBorder]. *)
Definition innerState (color : JSString) (width : number) (s : DrawState)
    : DrawState :=
  mkDrawState (globalAlpha s) (transform s) color (fillStyle s)
    (Math_max 2 (width * 0.5)) (shadowColor s) 0 (shadowOffsetX s)
    (shadowOffsetY s) (font s) (textAlign s) (textBaseline s).

(** A full circle around the origin. *)
Definition circle (radius : number) : PathSeg :=
  Arc 0 0 radius 0 (Math_PI * 2)%js.

(** The segment of the dashed ring that starts at [d] degrees. *)
Definition dashArc (radius : number) (d : Z) : PathSeg :=
  Arc 0 0 radius (radians (int d)) (radians (int (d + 5))).

(** Stroke [k] of the dashed ring: one arc, from [10 * k] degrees. *)
Definition dashStroke (radius : number) (st : DrawState) (k : nat) : DrawCall :=
  Stroke [dashArc radius (10 * Z.of_nat k)] st.

(** The calls of the inner ring and of the outer ring. *)
Definition innerCalls (this : Options.t) (radius : number) (color : JSString)
    (width : number) (s : DrawState) : list DrawCall :=
  if Options.showInnerCircle this
  then [Stroke [circle (radius - 12)%js] (innerState color width s)]
  else [].

Definition outerCalls (radius : number) (color : JSString) (width : number)
    (style : BorderStyle) (s : DrawState) : list DrawCall :=
  match style with
  | solid => [Stroke [circle radius] (outerState color width s)]
  | dashed => map (dashStroke radius (outerState color width s)) (seq 0 36)
  end.

(** The drawing state that [drawCompanyName] sets up before its loop. *)
Definition companyState (fontSize : number) (color : JSString)
    (s : DrawState) : DrawState :=
  mkDrawState (globalAlpha s) (transform s) (strokeStyle s) color
    (lineWidth s) (shadowColor s) (shadowBlur s) (shadowOffsetX s)
    (shadowOffsetY s) (mkFont true fontSize SimHei) align_center
    baseline_middle.

(** The drawing state of the title. *)
Definition titleState (fontSize : number) (color : JSString) (s : DrawState)
    : DrawState :=
  mkDrawState (globalAlpha s) (transform s) (strokeStyle s) color
    (lineWidth s) (str "rgba(0, 0, 0, 0.1)") 2 1 1
    (mkFont false fontSize SimHei) align_center baseline_middle.

Section Expected.
Context `{MathLib}.

(** The drawing state of a glyph placed at [theta] degrees: translated to
    [(radius * ratio * cos theta, radius * ratio * sin theta)], then
    rotated by [theta] (in radians) plus [PI / 2]. *)
Definition glyphState (radius radiusRatio theta : number)
    (color : JSString) (s : DrawState) : DrawState :=
  mkDrawState (globalAlpha s)
    (transform s ++
      [Translate (radius * radiusRatio * Math_cos (radians theta))%js
                 (radius * radiusRatio * Math_sin (radians theta))%js;
       Rotate (radians theta + Math_PI / 2)%js])
    color (fillStyle s) 1.2 (str "rgba(0, 0, 0, 0.10)") 2 1 1
    (font s) (textAlign s) (textBaseline s).

(** The two draw calls of glyph [i]. *)
Definition glyphCalls (radius radiusRatio step : number) (color : JSString)
    (s : DrawState) (i : nat) (u : N) : list DrawCall :=
  let st := glyphState radius radiusRatio (glyphDegrees startAngle step i)
              color s in
  [StrokeText [u] 0 0 st; FillText [u] 0 0 st].

(** The context that [generate] hands to [drawCompanyName]. *)
Definition paintHead (this : Options.t) : Ctx :=
  let size := Options.size this in
  let color := Options.color this in
  (clearRect 0 0 size size ;;
   set_globalAlpha (Options.opacity this) ;;
   translate (size / 2) (size / 2) ;;
   rotate ((Options.rotation this * Math_PI) / 180) ;;
   drawBorder this (size / 2 - 20) color (Options.borderWidth this)
     (Options.borderStyle this) ;;
   drawStar 0 0 (Options.starSize this) color)%ctx
    new_ctx.

(** The company stage of [generate]. *)
Definition paintCompany (this : Options.t) : Ctx :=
  drawCompanyName (Options.company this) (Options.size this / 2 - 20)
    (Options.companyFontSize this) (Options.color this)
    (Options.companyRadiusRatio this) (paintHead this).

End Expected.

(** ** Stores of the aging filter *)

(** The four byte indices of the pixel that starts at [i]. *)
Definition pixel (i j : nat) : Prop := (i <= j < i + 4)%nat.

(** Running [m] from [s] writes only at indices in [P], keeps every other
    byte and the length of the array, and only advances the random source. *)
Record frames {A : Type} (P : nat -> Prop) (m : St A) (s : Aging) : Prop :=
  mkFrames {
    frames_writes :
      exists w, writes (m s).2 = writes s ++ w /\ Forall (fun e => P e.1) w;
    frames_data : forall j, ~ P j -> data (m s).2 !! j = data s !! j;
    frames_length : List.length (data (m s).2) = List.length (data s);
    frames_draws : draws (rng (m s).2) = draws (rng s);
    frames_cursor : (cursor (rng s) <= cursor (rng (m s).2))%nat
  }.

(** The same from every store. *)
Definition touches_only {A : Type} (P : nat -> Prop) (m : St A) : Prop :=
  forall s, frames P m s.

(** The writes made between two stores of a run. *)
Definition new_writes (s s' : Aging) : list (nat * Z) :=
  drop (List.length (writes s)) (writes s').

(** The alpha erasure fired: the alpha byte of the pixel was written. *)
Definition erasure_fired (i : nat) (s s' : Aging) : Prop :=
  exists v, In ((i + 3)%nat, v) (new_writes s s').

(** The darkening fired: the red byte of the pixel was written. *)
Definition darkening_fired (i : nat) (s s' : Aging) : Prop :=
  exists v, In (i, v) (new_writes s s').

(** The first and the second draw that a step takes from [s]. *)
Definition draw0 (s : Aging) : number := Fin (draws (rng s) (cursor (rng s))).
Definition draw1 (s : Aging) : number :=
  Fin (draws (rng s) (S (cursor (rng s)))).

(** The test of the edge erosion: [dist] is within 8 of [radius]. *)
Definition in_band (radius : number) (dist : root) : bool :=
  root_gt dist (radius - 8) && root_lt dist (radius + 8).

(** The pixel that starts at [i] holds the bytes [r], [g], [b], [a]. *)
Definition pixel_at (s : Aging) (i : nat) (r g b a : Z) : Prop :=
  data s !! i = Some r /\ data s !! (i + 1)%nat = Some g /\
  data s !! (i + 2)%nat = Some b /\ data s !! (i + 3)%nat = Some a.

(** [Math.random] returns numbers in [0, 1). *)
Definition valid_draws (g : Rng) : Prop :=
  forall n, 0 <= draws g n /\ draws g n < 1.

(** The two fade areas that [addAgingEffect] generates from the store [s]. *)
Definition fadeAreas_of (size : number) (s : Aging) : list FadeArea :=
  let cx := size / 2 in
  let cy := size / 2 in
  let radius := size / 2 - 20 in
  let first := newFadeArea cx cy radius s in
  [first.1; (newFadeArea cx cy radius first.2).1].

(** A buffer of two pixels, the first one transparent. *)
Definition two_pixels : Aging :=
  mkAging [10; 20; 30; 0; 200; 100; 50; 255]%Z (mkRng 0 (fun _ => 0.5)) [].

(** A 40 x 40 canvas of one colour; every draw is 0. *)
Definition canvas40 : Aging :=
  mkAging (List.concat (repeat [200; 100; 50; 255]%Z (40 * 40)))
    (mkRng 0 (fun _ => 0)) [].

(** A 2 x 2 canvas of one colour; every draw is 0.5. *)
Definition canvas2 : Aging :=
  mkAging (List.concat (repeat [200; 100; 50; 255]%Z (2 * 2)))
    (mkRng 0 (fun _ => 0.5)) [].

(** ** The whole rendering *)

(** A resolved configuration handed back to the constructor. *)
Definition as_options (this : Options.t) : SealOptions.t :=
  SealOptions.mk (Some (Options.size this)) (Some (Options.color this))
    (Some (Options.company this)) (Some (Options.title this))
    (Some (Options.starSize this)) (Some (Options.companyFontSize this))
    (Some (Options.titleFontSize this)) (Some (Options.rotation this))
    (Some (Options.opacity this)) (Some (Options.borderWidth this))
    (Some (Options.borderStyle this))
    (Some (Options.companyRadiusRatio this))
    (Some (Options.titleRadiusRatio this))
    (Some (Options.starBottomAngle this))
    (Some (Options.showInnerCircle this)) (Some (Options.aging this))
    (Some (Options.agingStrength this)).

(** The transformation that [generate] installs before drawing. *)
Definition globalTransform (this : Options.t) : list Xform :=
  [Translate (Options.size this / 2) (Options.size this / 2);
   Rotate (radians (Options.rotation this))].

(** The drawing state after the setup of [generate]: the global alpha and
    the global transformation on top of the state of a fresh context. *)
Definition baseState (this : Options.t) : DrawState :=
  mkDrawState (Options.opacity this) (globalTransform this)
    (strokeStyle initial_state) (fillStyle initial_state)
    (lineWidth initial_state) (shadowColor initial_state)
    (shadowBlur initial_state) (shadowOffsetX initial_state)
    (shadowOffsetY initial_state) (font initial_state)
    (textAlign initial_state) (textBaseline initial_state).

(** The drawing states of the fill and of the outline of the star. *)
Definition starFillState (size : number) (color : JSString) (s : DrawState)
    : DrawState :=
  mkDrawState (globalAlpha s) (transform s) (strokeStyle s) color
    (lineWidth s) (str "rgba(0, 0, 0, 0.12)") 2 (shadowOffsetX s)
    (shadowOffsetY s) (mkFont true size SimHei) align_center baseline_middle.

Definition starStrokeState (size : number) (color : JSString) (s : DrawState)
    : DrawState :=
  mkDrawState (globalAlpha s) (transform s) (str "#a00000") color 2
    (str "rgba(0, 0, 0, 0.12)") 0 (shadowOffsetX s) (shadowOffsetY s)
    (mkFont true size SimHei) align_center baseline_middle.

(** The two draw calls of [drawStar]. *)
Definition starCalls (x y size : number) (color : JSString) (s : DrawState)
    : list DrawCall :=
  [FillText star x y (starFillState size color s);
   StrokeText star x y (starStrokeState size color s)].

(** The drawing state a call was issued under; [clearRect] has none. *)
Definition call_state (d : DrawCall) : option DrawState :=
  match d with
  | ClearRect _ _ _ _ => None
  | Stroke _ st | FillText _ _ _ st | StrokeText _ _ _ st => Some st
  end.

(** What a call does with text. *)
Inductive TextOp : Type :=
| Stroked (text : JSString)
| Filled (text : JSString)
| NoText.

Definition text_op (d : DrawCall) : TextOp :=
  match d with
  | StrokeText t _ _ _ => Stroked t
  | FillText t _ _ _ => Filled t
  | _ => NoText
  end.

Definition is_stroke (d : DrawCall) : bool :=
  match d with Stroke _ _ => true | _ => false end.

Definition is_text (d : DrawCall) : bool :=
  match d with FillText _ _ _ _ | StrokeText _ _ _ _ => true | _ => false end.

(** The number of calls of a kind in a log. *)
Definition count_calls (kind : DrawCall -> bool) (l : list DrawCall) : nat :=
  List.length (List.filter kind l).

(** ** Buffers *)




(** Every pixel of the buffer is fully transparent. *)
Definition all_transparent (s : Aging) : Prop :=
  forall (p : nat) (v : Z), data s !! (4 * p + 3)%nat = Some v -> v = 0%Z.

(** A buffer of two transparent pixels. *)
Definition clear_pixels : Aging :=
  mkAging [10; 20; 30; 0; 200; 100; 50; 0]%Z (mkRng 3 (fun _ => 0.5)) [].

(** ** The batch driver's configuration *)

(** The configuration of the seal of [company] in a batch. *)
Definition batchConfig (company : JSString) : Options.t :=
  {| Options.size := int 452;
     Options.color := str "#d20000";
     Options.company := company;
     Options.title := str " ";
     Options.starSize := int 150;
     Options.companyFontSize := int 60;
     Options.titleFontSize := int 28;
     Options.rotation := int 0;
     Options.opacity := int 1;
     Options.borderWidth := int 7;
     Options.borderStyle := solid;
     Options.companyRadiusRatio := Fin 0.75;
     Options.titleRadiusRatio := Fin 0.3;
     Options.starBottomAngle := int 108;
     Options.showInnerCircle := false;
     Options.aging := false;
     Options.agingStrength := Fin 0.13 |}.

(** [1.txt] is missing, or holds nothing but commas and white space. *)
Definition blank_file (file : option JSString) : Prop :=
  match file with
  | None => True
  | Some content =>
      Forall (fun u => u = comma \/ is_whitespace u = true) content
  end.

Section BatchFiles.
Context `{MathLib}.
Variable surface : number -> Ctx -> list Z.
Variable toBuffer : list Z -> list Byte.byte.

(** The file of the seal of [company] written to [outputPath]. *)
Definition batchFile (company outputPath : JSString) (g : Rng) : Generated :=
  mkGenerated outputPath
    (toBuffer (surface (int 452) (paint (batchConfig company))))
    outputPath g.

End BatchFiles.

(** * Properties *)

(** ** Configuration resolution *)

(** The slip on [opacity]: the constructor keeps an explicitly set
    [agingStrength] of 0 (it tests [!== undefined]) and a [rotation] of 0
    (the default is 0 too), but an explicitly set [opacity] of 0, a value of
    the documented range 0-1, is replaced by the default 1.0. *)
Lemma constructor_replaces_zero_opacity :
  SealOptions.opacity transparent_options = Some (int 0) /\
  Options.opacity (SealGenerator transparent_options) = Fin 1.0 /\
  Options.rotation (SealGenerator transparent_options) = int 0 /\
  Options.agingStrength (SealGenerator transparent_options) = int 0.
Proof. repeat split. Qed.

Lemma or_default_resolves {A : Type} `{ToBoolean A} (given : option A)
    (d : A) :
  truthy_or_default given d (or_default given d).
Proof.
  unfold truthy_or_default, or_default. repeat split.
  - now intros ->.
  - intros v -> Hv. now rewrite Hv.
  - intros v -> Hv. now rewrite Hv.
Qed.

Lemma defined_or_resolves {A : Type} (given : option A) (d : A) :
  set_or_default given d (defined_or given d).
Proof. unfold set_or_default, defined_or. split; now intros; subst. Qed.

(** C3 (as the code has it).  The constructor applies the default of a
    field when the field is absent, and keeps every truthy value the caller
    sets (a number other than 0 and [NaN], a non-empty string, a border
    style).  The fields resolved with [||] fall back to the default also
    when the caller sets a falsy value (0, [NaN], the empty string); a
    [rotation] of 0 thus resolves to 0, its default.  [showInnerCircle],
    [aging] and [agingStrength] are resolved with [!== undefined] and keep
    whatever the caller sets, [false] and 0 included.  Nothing is said of a
    falsy [opacity]. *)
Theorem constructor_resolution (o : SealOptions.t) :
  let this := SealGenerator o in
  truthy_or_default (SealOptions.size o) (int 400) (Options.size this)
  /\ truthy_or_default (SealOptions.color o) (str "#FF0000")
       (Options.color this)
  /\ truthy_or_default (SealOptions.company o) default_company
       (Options.company this)
  /\ truthy_or_default (SealOptions.title o) (str " ") (Options.title this)
  /\ truthy_or_default (SealOptions.starSize o) (int 100)
       (Options.starSize this)
  /\ truthy_or_default (SealOptions.companyFontSize o) (int 24)
       (Options.companyFontSize this)
  /\ truthy_or_default (SealOptions.titleFontSize o) (int 20)
       (Options.titleFontSize this)
  /\ truthy_or_default (SealOptions.rotation o) (int 0)
       (Options.rotation this)
  /\ (SealOptions.rotation o = Some (int 0) -> Options.rotation this = int 0)
  /\ truthy_kept (SealOptions.opacity o) (Fin 1.0) (Options.opacity this)
  /\ truthy_or_default (SealOptions.borderWidth o) (int 6)
       (Options.borderWidth this)
  /\ truthy_or_default (SealOptions.borderStyle o) solid
       (Options.borderStyle this)
  /\ truthy_or_default (SealOptions.companyRadiusRatio o) (Fin 0.75)
       (Options.companyRadiusRatio this)
  /\ truthy_or_default (SealOptions.titleRadiusRatio o) (Fin 0.33)
       (Options.titleRadiusRatio this)
  /\ truthy_or_default (SealOptions.starBottomAngle o) (int 108)
       (Options.starBottomAngle this)
  /\ set_or_default (SealOptions.showInnerCircle o) true
       (Options.showInnerCircle this)
  /\ set_or_default (SealOptions.aging o) true (Options.aging this)
  /\ set_or_default (SealOptions.agingStrength o) (Fin 0.13)
       (Options.agingStrength this).
Proof.
  cbv zeta. unfold SealGenerator.
  cbn [Options.size Options.color Options.company Options.title
       Options.starSize Options.companyFontSize Options.titleFontSize
       Options.rotation Options.opacity Options.borderWidth
       Options.borderStyle Options.companyRadiusRatio
       Options.titleRadiusRatio Options.starBottomAngle
       Options.showInnerCircle Options.aging Options.agingStrength].
  repeat match goal with
         | |- _ /\ _ => split
         | |- truthy_or_default _ _ _ => apply or_default_resolves
         | |- set_or_default _ _ _ => apply defined_or_resolves
         end.
  - now intros ->.
  - destruct (or_default_resolves (SealOptions.opacity o) (Fin 1.0))
      as (Hnone & Hsome & _). now split.
Qed.

(** The options of the batch driver keep their values. *)
Lemma constructor_resolution_batch :
  Options.size (SealGenerator
    (SealOptions.mk (Some (int 452)) None None None None None None None None
       None None None None None None None None)) = int 452.
Proof.
  destruct (constructor_resolution
    (SealOptions.mk (Some (int 452)) None None None None None None None None
       None None None None None None None None)) as [(_ & Hkept & _) _].
  apply Hkept; reflexivity.
Defined.

(** C3 (as stated) fails: the caller sets [company] to the empty string and
    the resolved configuration holds the default company name instead. *)
Lemma constructor_replaces_empty_company :
  SealOptions.company empty_company_options = Some []
  /\ Options.company (SealGenerator empty_company_options) = default_company
  /\ default_company <> [].
Proof. repeat split. discriminate. Qed.

(** ** Square roots against the reals

    The comparisons of [root] are those of the real square root. *)

Lemma sqrt_gt_iff (a b : R) :
  (0 <= a)%R -> (0 <= b)%R -> (a < sqrt b)%R <-> (a * a < b)%R.
Proof.
  intros Ha Hb. rewrite <- (sqrt_square a Ha) at 1. split.
  - intros H. apply sqrt_lt_0_alt in H. exact H.
  - intros H. apply sqrt_lt_1_alt. split; [|exact H].
    apply Rmult_le_pos; assumption.
Qed.

Lemma sqrt_lt_iff (a b : R) :
  (0 <= a)%R -> (0 < b)%R -> (sqrt a < b)%R <-> (a < b * b)%R.
Proof.
  intros Ha Hb. rewrite <- (sqrt_square b) at 1 by lra. split.
  - intros H. apply sqrt_lt_0_alt in H. exact H.
  - intros H. apply sqrt_lt_1_alt. split; assumption.
Qed.

Lemma root_gt_real (q x : Q) :
  0 <= q -> root_gt (Root q) (Fin x) = true <-> (Q2R x < sqrt (Q2R q))%R.
Proof.
  intros Hq. apply Qle_Rle in Hq. rewrite RMicromega.Q2R_0 in Hq.
  unfold root_gt, Qsign. destruct (x ?= 0) eqn:Ex.
  - apply Qeq_alt in Ex. apply Qeq_eqR in Ex. rewrite RMicromega.Q2R_0 in Ex.
    rewrite sqrt_gt_iff by lra. rewrite <- Q2R_mult.
    destruct (q ?= x * x) eqn:E.
    + apply Qeq_alt, Qeq_eqR in E. split; [discriminate|]. lra.
    + apply Qlt_alt, Qlt_Rlt in E. split; [discriminate|]. lra.
    + apply Qgt_alt, Qlt_Rlt in E. split; [intros _; exact E|reflexivity].
  - apply Qlt_alt, Qlt_Rlt in Ex. rewrite RMicromega.Q2R_0 in Ex.
    split; [intros _|reflexivity].
    pose proof (sqrt_pos (Q2R q)). lra.
  - apply Qgt_alt, Qlt_Rlt in Ex. rewrite RMicromega.Q2R_0 in Ex.
    rewrite sqrt_gt_iff by lra. rewrite <- Q2R_mult.
    destruct (q ?= x * x) eqn:E.
    + apply Qeq_alt, Qeq_eqR in E. split; [discriminate|]. lra.
    + apply Qlt_alt, Qlt_Rlt in E. split; [discriminate|]. lra.
    + apply Qgt_alt, Qlt_Rlt in E. split; [intros _; exact E|reflexivity].
Qed.

Lemma root_lt_real (q y : Q) :
  0 <= q -> root_lt (Root q) (Fin y) = true <-> (sqrt (Q2R q) < Q2R y)%R.
Proof.
  intros Hq. apply Qle_Rle in Hq. rewrite RMicromega.Q2R_0 in Hq.
  pose proof (sqrt_pos (Q2R q)) as Hs.
  unfold root_lt, Qsign. destruct (y ?= 0) eqn:Ey.
  - apply Qeq_alt in Ey. apply Qeq_eqR in Ey. rewrite RMicromega.Q2R_0 in Ey.
    split; [discriminate|]. lra.
  - apply Qlt_alt, Qlt_Rlt in Ey. rewrite RMicromega.Q2R_0 in Ey.
    split; [discriminate|]. lra.
  - apply Qgt_alt, Qlt_Rlt in Ey. rewrite RMicromega.Q2R_0 in Ey.
    rewrite sqrt_lt_iff by lra. rewrite <- Q2R_mult.
    destruct (q ?= y * y) eqn:E.
    + apply Qeq_alt, Qeq_eqR in E. split; [discriminate|]. lra.
    + apply Qlt_alt, Qlt_Rlt in E. split; [intros _; exact E|reflexivity].
    + apply Qgt_alt, Qlt_Rlt in E. split; [discriminate|]. lra.
Qed.

(** ** Arithmetic of [number] *)

Lemma nmul_NaN_r (a : number) : (a * NaN)%js = NaN.
Proof. now destruct a. Qed.

(** ** [drawCompanyName] *)

(** Runs the context operations of the goal, innermost call first. *)
Ltac ctx_eval :=
  cbv beta iota zeta delta
    [seq_ctx skip save restore beginPath arc stroke fillText
     strokeText clearRect translate rotate push_xform emit
     set_globalAlpha set_strokeStyle set_fillStyle set_lineWidth
     set_shadowColor set_shadowBlur set_shadowOffsetX set_shadowOffsetY
     set_font set_textAlign set_textBaseline with_state
     calls state saved path globalAlpha transform strokeStyle fillStyle
     lineWidth shadowColor shadowBlur shadowOffsetX shadowOffsetY font
     textAlign textBaseline].

Section CompanyName.
Context `{MathLib}.

(** With a single character the step is [240 / 0]. *)
Lemma angleStep_single (u : N) : angleStep_of (split_chars [u]) = PInf.
Proof. reflexivity. Qed.

Lemma glyphDegrees_single : glyphDegrees startAngle PInf 0 = NaN.
Proof. reflexivity. Qed.

(** C1.  For a company of one character the step is [240 / 0 = Infinity],
    the angle of the glyph is [-210 + 0 * Infinity = NaN], and the glyph is
    stroked and filled under [translate(NaN, NaN)] and [rotate(NaN)]: it is
    not placed at -90 degrees, and non-finite values are produced. *)
Theorem single_glyph_is_NaN (u : N) (radius fontSize : number)
    (color : JSString) (radiusRatio : number) (c : Ctx) :
  angleStep_of (split_chars [u]) = PInf /\
  glyphDegrees startAngle (angleStep_of (split_chars [u])) 0 = NaN /\
  exists st : DrawState,
    transform st = transform (state c) ++ [Translate NaN NaN; Rotate NaN] /\
    calls (drawCompanyName [u] radius fontSize color radiusRatio c)
    = calls c ++ [StrokeText [u] 0 0 st; FillText [u] 0 0 st].
Proof.
  split; [reflexivity|]. split; [reflexivity|].
  unfold drawCompanyName.
  rewrite angleStep_single. cbn [split_chars map forEach].
  unfold drawGlyph. rewrite glyphDegrees_single.
  change ((NaN * Math_PI) / 180)%js with NaN.
  rewrite Math_cos_NaN, Math_sin_NaN, !nmul_NaN_r.
  change (NaN + Math_PI / 2)%js with NaN.
  destruct c as [st sv pa cl]. ctx_eval.
  eexists. split; [|rewrite <- app_assoc; reflexivity].
  cbn [transform]. rewrite <- app_assoc. reflexivity.
Qed.

End CompanyName.

(** ** [drawBorder] *)

Lemma int_add (z : Z) (n : Z) : (int z + Fin (inject_Z n))%js = int (z + n).
Proof.
  unfold int, nadd, inject_Z, Qplus. simpl. f_equal. f_equal. lia.
Qed.

Lemma int_lt (z n : Z) : (int z <? int n)%js = (z <? n)%Z.
Proof.
  unfold int, nlt, Qcompare, inject_Z. simpl. rewrite !Z.mul_1_r.
  unfold Z.ltb. now destruct (z ?= n)%Z.
Qed.

Section Border.
Context `{MathLib}.

(** The loop from [10 * k] degrees on: [n] rounds remain, each strokes
    its own one-arc path, and any fuel above [n] gives the same result
    (the loop ends by its test). *)
Lemma dashes_run (radius : number) (n : nat) :
  forall (fuel k : nat) (c : Ctx),
    (k + n = 36)%nat -> (n < fuel)%nat ->
    dashes fuel radius (int (10 * Z.of_nat k)) c
    = mkCtx (state c) (saved c)
        (match n with O => path c | S _ => [dashArc radius 350] end)
        (calls c ++ map (dashStroke radius (state c)) (seq k n)).
Proof.
  induction n as [|n IH]; intros fuel k c Hk Hfuel.
  - destruct fuel as [|fuel]; [lia|]. cbn [dashes].
    change (Fin 360) with (int 360). rewrite int_lt.
    replace (10 * Z.of_nat k <? 360)%Z with false
      by (symmetry; apply Z.ltb_ge; lia).
    rewrite app_nil_r. now destruct c.
  - destruct fuel as [|fuel]; [lia|]. cbn [dashes].
    change (Fin 360) with (int 360). rewrite int_lt.
    replace (10 * Z.of_nat k <? 360)%Z with true
      by (symmetry; apply Z.ltb_lt; lia).
    change (Fin 10) with (Fin (inject_Z 10)).
    change (Fin 5) with (Fin (inject_Z 5)).
    rewrite !int_add.
    replace (10 * Z.of_nat k + 10)%Z with (10 * Z.of_nat (S k))%Z by lia.
    unfold seq_ctx at 1 2 3.
    rewrite IH by lia.
    unfold stroke, arc, beginPath, emit. simpl.
    rewrite <- app_assoc. simpl.
    f_equal.
    destruct n as [|n]; [|reflexivity].
    unfold dashArc. replace (10 * Z.of_nat k)%Z with 350%Z by lia.
    reflexivity.
Qed.

Lemma dashes_all (radius : number) (c : Ctx) :
  dashes dashes_fuel radius 0 c
  = mkCtx (state c) (saved c) [dashArc radius 350]
      (calls c ++ map (dashStroke radius (state c)) (seq 0 36)).
Proof.
  apply (dashes_run radius 36 dashes_fuel 0 c); unfold dashes_fuel; lia.
Qed.

(** All the calls of [drawBorder], for both styles and with or without the
    inner ring; the drawing state and the save stack are as before. *)
Lemma drawBorder_calls (this : Options.t) (radius : number)
    (color : JSString) (width : number) (style : BorderStyle) (c : Ctx) :
  calls (drawBorder this radius color width style c)
  = calls c ++ outerCalls radius color width style (state c)
            ++ innerCalls this radius color width (state c)
  /\ state (drawBorder this radius color width style c) = state c
  /\ saved (drawBorder this radius color width style c) = saved c.
Proof.
  destruct c as [st sv pa cl].
  unfold drawBorder, innerCalls, outerCalls.
  destruct style.
  - destruct (Options.showInnerCircle this); ctx_eval;
      rewrite <- ?app_assoc; repeat split; reflexivity.
  - cbv beta delta [seq_ctx]. rewrite dashes_all.
    set (segs := map _ (seq 0 36)).
    destruct (Options.showInnerCircle this); ctx_eval;
      rewrite <- ?app_assoc; repeat split; reflexivity.
Qed.

End Border.

(** ** Equality of numbers up to the representation of rationals *)

Lemma neq_refl (a : number) : a =~ a.
Proof. destruct a; simpl; auto. reflexivity. Qed.

Lemma nlt_neq (a a' b b' : number) :
  a =~ a' -> b =~ b' -> (a <? b)%js = (a' <? b')%js.
Proof.
  destruct a, a', b, b'; simpl; auto; try contradiction.
  intros E1 E2. now rewrite E1, E2.
Qed.

Lemma Math_max_neq (a a' b b' : number) :
  a =~ a' -> b =~ b' -> Math_max a b =~ Math_max a' b'.
Proof.
  intros Ea Eb. pose proof (nlt_neq _ _ _ _ Ea Eb) as E.
  destruct a, a', b, b'; simpl in *; auto; try contradiction;
    rewrite <- ?E; try (destruct (_ ?= _)%Q); simpl; auto.
Qed.

(** [w * 0.5] is [w / 2]. *)
Lemma half_is_div2 (w : number) : (w * 0.5)%js =~ (w / 2)%js.
Proof.
  destruct w; simpl; auto. unfold Qdiv.
  change (/ 2)%Q with (1 # 2)%Q. change 0.5%Q with (5 # 10)%Q.
  apply Qmult_comp; reflexivity.
Qed.

Section BorderClaims.
Context `{MathLib}.

(** C8.  With [borderStyle = dashed] the outer border is exactly 36
    strokes, each of a path of its own made of one arc; the arc of stroke
    [k] starts at [10 * k] degrees (0, 10, ..., 350) and ends at
    [10 * k + 5] degrees, so it spans 5 degrees. *)
Theorem dashed_border_segments (this : Options.t) (radius : number)
    (color : JSString) (width : number) (c : Ctx) :
  let st := outerState color width (state c) in
  let segments := map (dashStroke radius st) (seq 0 36) in
  calls (drawBorder this radius color width dashed c)
  = calls c ++ segments ++ innerCalls this radius color width (state c)
  /\ List.length segments = 36%nat
  /\ (forall k : nat,
        dashStroke radius st k
        = Stroke [Arc 0 0 radius (radians (int (10 * Z.of_nat k)))
                    (radians (int (10 * Z.of_nat k + 5)))] st)
  /\ (forall k : nat,
        (radians (int (10 * Z.of_nat k + 5))
         - radians (int (10 * Z.of_nat k)))%js =~ radians 5).
Proof.
  intros st segments. split; [|split; [|split]].
  - apply (drawBorder_calls this radius color width dashed c).
  - reflexivity.
  - reflexivity.
  - intros k. unfold radians, int, Math_PI. simpl.
    unfold Qsign. simpl. rewrite inject_Z_plus. field.
Qed.

(** C9.  With [showInnerCircle = true], whatever the border style,
    [drawBorder] issues exactly one more stroke than without it, last: a
    full circle of radius [radius - 12] around the origin, stroked with
    line width [max(2, width * 0.5)] (which is [max(2, width / 2)]) and a
    shadow blur of 0. *)
Theorem inner_circle_stroke (this : Options.t) (radius : number)
    (color : JSString) (width : number) (style : BorderStyle) (c : Ctx) :
  Options.showInnerCircle this = true ->
  let st := innerState color width (state c) in
  let inner := Stroke [Arc 0 0 (radius - 12)%js 0 (Math_PI * 2)%js] st in
  calls (drawBorder this radius color width style c)
  = calls c ++ outerCalls radius color width style (state c) ++ [inner]
  /\ (forall this0 : Options.t,
        Options.showInnerCircle this0 = false ->
        calls (drawBorder this radius color width style c)
        = calls (drawBorder this0 radius color width style c) ++ [inner])
  /\ lineWidth st = Math_max 2 (width * 0.5)%js
  /\ lineWidth st =~ Math_max 2 (width / 2)%js
  /\ shadowBlur st = 0
  /\ strokeStyle st = color.
Proof.
  intros Hshow st inner.
  destruct (drawBorder_calls this radius color width style c) as [Hc _].
  unfold innerCalls in Hc. rewrite Hshow in Hc.
  split; [exact Hc|]. split.
  - intros this0 Hoff.
    destruct (drawBorder_calls this0 radius color width style c) as [Hc0 _].
    unfold innerCalls in Hc0. rewrite Hoff, app_nil_r in Hc0.
    rewrite Hc, Hc0, <- app_assoc. reflexivity.
  - split; [reflexivity|]. split; [|split; reflexivity].
    apply Math_max_neq; [apply neq_refl | apply half_is_div2].
Qed.

End BorderClaims.

(** The inner ring of the default generator, on a fresh context. *)
Lemma inner_circle_stroke_default :
  Options.showInnerCircle (SealGenerator SealOptions.empty) = true /\
  exists st : DrawState,
    lineWidth st =~ 3 /\
    shadowBlur st = 0 /\
    last (calls (drawBorder (SealGenerator SealOptions.empty) 180
                   (str "#FF0000") 6 dashed new_ctx))
    = Some (Stroke [Arc 0 0 168 0 (Math_PI * 2)%js] st).
Proof.
  split; [reflexivity|].
  destruct (inner_circle_stroke (SealGenerator SealOptions.empty) 180
              (str "#FF0000") 6 dashed new_ctx eq_refl) as [Hc _].
  eexists. split; [|split]; [| |rewrite Hc; vm_compute; reflexivity];
    reflexivity.
Defined.

(** ** The arc of the company name *)

Lemma startAngle_value : startAngle = Fin (- 90 + - (240 / 2)).
Proof. reflexivity. Qed.

Lemma length_split_chars (text : JSString) :
  List.length (split_chars text) = List.length text.
Proof. apply length_map. Qed.

(** From two characters on the divisor [chars.length - 1] is positive and
    the step is finite. *)
Lemma angleStep_finite (text : JSString) :
  (2 <= List.length text)%nat ->
  angleStep_of (split_chars text)
  = Fin (240 / (inject_Z (Z.of_nat (List.length text)) - 1)).
Proof.
  intros Hn. unfold angleStep_of, length_of, totalAngle.
  rewrite length_split_chars.
  unfold int, nsub, nneg, nadd, ndiv, Qsign, Qminus.
  assert (Hpos : 0 < inject_Z (Z.of_nat (List.length text)) + Qopp 1).
  { unfold Qlt, inject_Z, Qplus. simpl. lia. }
  apply Qgt_alt in Hpos. rewrite Hpos. reflexivity.
Qed.

Lemma glyphDegrees_finite (a s : Q) (i : nat) :
  glyphDegrees (Fin a) (Fin s) i = Fin (a + inject_Z (Z.of_nat i) * s).
Proof. reflexivity. Qed.

Lemma ndiv_pos (x y : Q) :
  (y ?= 0) = Gt -> (Fin x / Fin y)%js = Fin (x / y).
Proof. intros Hy. unfold ndiv, Qsign. now rewrite Hy. Qed.

Lemma radians_finite (d : Q) :
  radians (Fin d) = Fin (d * (884279719003555 # 281474976710656) / 180).
Proof. reflexivity. Qed.

(** Turning by [PI / 2] is adding 90 degrees. *)
Lemma quarter_turn (d : Q) :
  (radians (Fin d) + Math_PI / 2)%js =~ radians (Fin (d + 90)).
Proof.
  rewrite !radians_finite. unfold Math_PI.
  rewrite ndiv_pos by reflexivity. cbn [neq nadd]. field.
Qed.

Section CompanyArc.
Context `{MathLib}.

Lemma drawGlyph_run (radius radiusRatio step : number) (color : JSString)
    (u : N) (i : nat) (c : Ctx) :
  drawGlyph radius radiusRatio startAngle step color [u] i c
  = mkCtx (state c) (saved c) (path c)
      (calls c ++ glyphCalls radius radiusRatio step color (state c) i u).
Proof.
  destruct c as [st sv pa cl].
  unfold drawGlyph, glyphCalls, glyphState, radians. ctx_eval.
  rewrite <- !app_assoc. reflexivity.
Qed.

Lemma forEach_glyphs (radius radiusRatio step : number) (color : JSString)
    (text : JSString) :
  forall (i : nat) (c : Ctx),
    forEach (drawGlyph radius radiusRatio startAngle step color)
      (split_chars text) i c
    = mkCtx (state c) (saved c) (path c)
        (calls c ++
         List.concat (imap (fun k =>
                         glyphCalls radius radiusRatio step color (state c)
                           (i + k)) text)).
Proof.
  induction text as [|u text IH]; intros i c.
  - simpl. rewrite app_nil_r. now destruct c.
  - cbn [split_chars map forEach]. unfold seq_ctx.
    rewrite drawGlyph_run. change (map _ text) with (split_chars text).
    rewrite IH. cbn [state saved path calls imap List.concat].
    rewrite <- app_assoc, Nat.add_0_r. do 4 f_equal.
    apply imap_ext. intros k v _. cbn. f_equal. lia.
Qed.

(** The calls of [drawCompanyName], for any text. *)
Lemma drawCompanyName_calls (text : JSString) (radius fontSize : number)
    (color : JSString) (radiusRatio : number) (c : Ctx) :
  calls (drawCompanyName text radius fontSize color radiusRatio c)
  = calls c ++
    List.concat (imap (glyphCalls radius radiusRatio
                    (angleStep_of (split_chars text)) color
                    (companyState fontSize color (state c))) text).
Proof.
  unfold drawCompanyName. cbv beta zeta delta [seq_ctx].
  rewrite forEach_glyphs. destruct c as [st sv pa cl].
  ctx_eval. reflexivity.
Qed.

End CompanyArc.

Section CompanyArcClaims.
Context `{MathLib}.

(** C5.  For a company name of [n >= 2] characters: the step between
    adjacent glyphs is [240 / (n - 1)] degrees; the first glyph is at -210
    degrees and the last at 30 degrees, symmetric about -90 degrees; glyph
    [i], at [theta i] degrees, is stroked and filled at the origin of a
    frame translated to [(radius * ratio * cos theta, radius * ratio * sin
    theta)] and rotated by [theta + 90] degrees. *)
Theorem company_arc_layout (text : JSString) (radius fontSize : number)
    (color : JSString) (radiusRatio : number) (c : Ctx) :
  (2 <= List.length text)%nat ->
  let n := List.length text in
  let step := angleStep_of (split_chars text) in
  let theta := glyphDegrees startAngle step in
  let s0 := companyState fontSize color (state c) in
  let st := fun i => glyphState radius radiusRatio (theta i) color s0 in
  step =~ Fin (240 / (inject_Z (Z.of_nat n) - 1))
  /\ (forall i : nat, (theta (S i) - theta i)%js =~ step)
  /\ theta 0%nat =~ Fin (-210)
  /\ theta (n - 1)%nat =~ Fin 30
  /\ ((theta 0%nat + theta (n - 1)%nat) / 2)%js =~ Fin (-90)
  /\ calls (drawCompanyName text radius fontSize color radiusRatio c)
     = calls c ++
       List.concat
         (imap (fun i u => [StrokeText [u] 0 0 (st i);
                            FillText [u] 0 0 (st i)]) text)
  /\ (forall i : nat,
        transform (st i)
        = transform (state c) ++
          [Translate
             (radius * radiusRatio * Math_cos (radians (theta i)))%js
             (radius * radiusRatio * Math_sin (radians (theta i)))%js;
           Rotate (radians (theta i) + Math_PI / 2)%js])
  /\ (forall i : nat,
        (radians (theta i) + Math_PI / 2)%js
        =~ radians (theta i + 90)%js).
Proof.
  intros Hn n step theta s0 st.
  assert (Hstep : step = Fin (240 / (inject_Z (Z.of_nat n) - 1)))
    by apply (angleStep_finite text Hn).
  assert (Hnz : ~ inject_Z (Z.of_nat n) - 1 == 0).
  { unfold Qeq, Qminus, Qplus, inject_Z. simpl. lia. }
  assert (Htheta : forall i,
             theta i = Fin (- 90 + - (240 / 2) + inject_Z (Z.of_nat i)
                            * (240 / (inject_Z (Z.of_nat n) - 1)))).
  { intros i. unfold theta. rewrite Hstep, startAngle_value.
    apply glyphDegrees_finite. }
  assert (Hlast : inject_Z (Z.of_nat (n - 1)) == inject_Z (Z.of_nat n) - 1).
  { unfold Qeq, Qminus, Qplus, inject_Z. simpl. lia. }
  split; [|split; [|split; [|split; [|split; [|split; [|split]]]]]].
  - rewrite Hstep. apply neq_refl.
  - intros i. rewrite !Htheta, Hstep. cbn [nsub nneg nadd neq].
    rewrite Nat2Z.inj_succ. unfold Z.succ. rewrite inject_Z_plus.
    field. exact Hnz.
  - rewrite Htheta. cbn [neq]. change (inject_Z (Z.of_nat 0)) with 0.
    field. exact Hnz.
  - rewrite Htheta. cbn [neq]. rewrite Hlast. field. exact Hnz.
  - rewrite !Htheta. cbn [nadd]. rewrite ndiv_pos by reflexivity.
    cbn [neq]. rewrite Hlast. change (inject_Z (Z.of_nat 0)) with 0.
    field. exact Hnz.
  - apply drawCompanyName_calls.
  - intros i. reflexivity.
  - intros i. rewrite Htheta. cbn [nadd]. apply quarter_turn.
Qed.

End CompanyArcClaims.

(** The three glyphs of "ABC": -210, -90 and 30 degrees. *)
Lemma company_arc_layout_ABC :
  (2 <= List.length (str "ABC"))%nat /\
  glyphDegrees startAngle (angleStep_of (split_chars (str "ABC"))) 2 =~ Fin 30.
Proof.
  assert (Hn : (2 <= List.length (str "ABC"))%nat) by (cbn; lia).
  split; [exact Hn|].
  destruct (@company_arc_layout series_MathLib (str "ABC") 206 60
              (str "#d20000") 0.75 new_ctx Hn) as (_ & _ & _ & Hlast & _).
  exact Hlast.
Defined.

(** ** Rendering an empty company name *)

Section EmptyCompany.
Context `{MathLib}.

Lemma paint_stages (this : Options.t) :
  paint this
  = drawTitle (Options.title this) (Options.size this / 2 - 20)
      (Options.titleFontSize this) (Options.color this)
      (Options.titleRadiusRatio this) (paintCompany this).
Proof.
  unfold paint, paintCompany, paintHead.
  cbv beta zeta delta [seq_ctx]. reflexivity.
Qed.

Lemma drawTitle_calls (text : JSString) (radius fontSize : number)
    (color : JSString) (radiusRatio : number) (c : Ctx) :
  calls (drawTitle text radius fontSize color radiusRatio c)
  = calls c ++ [FillText text 0 (radius * radiusRatio)%js
                  (titleState fontSize color (state c))].
Proof. destruct c as [st sv pa cl]. unfold drawTitle. ctx_eval. reflexivity. Qed.

(** With an empty text, [drawCompanyName] draws nothing. *)
Lemma drawCompanyName_empty (radius fontSize : number) (color : JSString)
    (radiusRatio : number) (c : Ctx) :
  calls (drawCompanyName [] radius fontSize color radiusRatio c) = calls c.
Proof. rewrite drawCompanyName_calls. cbn. apply app_nil_r. Qed.

(** C4 (as the code has it).  A generator built with [company: ""] does
    not keep the empty name: the constructor resolves it to the default
    "测试公司", and the company stage of [generate] strokes and fills the four
    glyphs of that default.  [drawCompanyName] itself issues no draw call for
    an empty text (the step, [240 / -1], is finite).  In every case the
    rendering runs to its end: the last call is the title's [fillText]. *)
Theorem empty_company_resolves_to_default (o : SealOptions.t) :
  SealOptions.company o = Some [] ->
  let this := SealGenerator o in
  let radius := (Options.size this / 2 - 20)%js in
  let s0 := companyState (Options.companyFontSize this) (Options.color this)
              (state (paintHead this)) in
  Options.company this = default_company
  /\ calls (paintCompany this)
     = calls (paintHead this) ++
       List.concat
         (imap (glyphCalls radius (Options.companyRadiusRatio this)
                  (240 / 3) (Options.color this) s0) default_company)
  /\ (forall (r fontSize : number) (color : JSString) (ratio : number)
             (c : Ctx),
        calls (drawCompanyName [] r fontSize color ratio c) = calls c)
  /\ angleStep_of (split_chars []) =~ Fin (-240)
  /\ exists st : DrawState,
       last (calls (paint this))
       = Some (FillText (Options.title this) 0
                 (radius * Options.titleRadiusRatio this)%js st).
Proof.
  intros Hempty this radius s0.
  assert (Hco : Options.company this = default_company).
  { unfold this, SealGenerator. cbn [Options.company]. now rewrite Hempty. }
  split; [exact Hco|]. split; [|split; [|split]].
  - unfold paintCompany. rewrite drawCompanyName_calls, Hco. reflexivity.
  - intros. apply drawCompanyName_empty.
  - reflexivity.
  - rewrite paint_stages, drawTitle_calls. eexists. apply last_snoc.
Qed.

End EmptyCompany.

(** The generator built from [{ company: "" }] draws the default name. *)
Lemma empty_company_resolves_to_default_run :
  SealOptions.company empty_company_options = Some [] /\
  Options.company (SealGenerator empty_company_options) = default_company.
Proof.
  split; [reflexivity|].
  apply (@empty_company_resolves_to_default series_MathLib
           empty_company_options eq_refl).
Defined.

(** C4 (as stated) fails: with [company: ""] the rendering fills the glyph
    "测" of the default company name, whatever the native [cos] and [sin]. *)
Lemma empty_company_still_draws_glyphs :
  SealOptions.company empty_company_options = Some [] /\
  forall M : MathLib,
    exists st : DrawState,
      In (FillText [0x6D4B%N] 0 0 st)
         (calls (@paint M (SealGenerator empty_company_options))).
Proof.
  split; [reflexivity|]. intros M.
  rewrite paint_stages, drawTitle_calls. unfold paintCompany.
  rewrite drawCompanyName_calls.
  change (Options.company (SealGenerator empty_company_options))
    with default_company.
  eexists. apply in_or_app. left. apply in_or_app. right.
  cbn [imap List.concat glyphCalls app default_company]. right. left.
  reflexivity.
Qed.

(** ** [generate] without aging *)

Section Determinism.
Context `{MathLib}.
Variable surface : number -> Ctx -> list Z.
Variable toBuffer : list Z -> list Byte.byte.

(** C6.  With [aging = false], [generate] takes no random draw: the random
    source is left where it was, and the bytes written are those of the
    painted surface, the same whatever the random source holds.  Two runs on
    the same configuration write identical buffers. *)
Theorem generate_without_aging (this : Options.t) (outputPath : JSString)
    (g g' : Rng) :
  Options.aging this = false ->
  generate surface toBuffer this outputPath g
  = mkGenerated outputPath
      (toBuffer (surface (Options.size this) (paint this))) outputPath g
  /\ written_bytes (generate surface toBuffer this outputPath g)
     = written_bytes (generate surface toBuffer this outputPath g').
Proof.
  intros Hoff. unfold generate. rewrite Hoff. split; reflexivity.
Qed.

End Determinism.

(** Two runs of a generator built with [aging: false], on different random
    sources, write the same bytes. *)
Lemma generate_without_aging_run :
  Options.aging (SealGenerator plain_options) = false /\
  written_bytes
    (generate (fun _ c => repeat 0%Z (List.length (calls c))) (fun _ => [])
       (SealGenerator plain_options) (str "a.png")
       (mkRng 0 (fun _ => 0)))
  = written_bytes
      (generate (fun _ c => repeat 0%Z (List.length (calls c))) (fun _ => [])
         (SealGenerator plain_options) (str "a.png")
         (mkRng 0 (fun _ => 0.5))).
Proof.
  split; [reflexivity|].
  apply (generate_without_aging
           (fun _ c => repeat 0%Z (List.length (calls c))) (fun _ => [])
           (SealGenerator plain_options) (str "a.png")
           (mkRng 0 (fun _ => 0)) (mkRng 0 (fun _ => 0.5)) eq_refl).
Defined.

(** ** The aging filter: what a step may touch *)

Lemma touches_ret {A : Type} (P : nat -> Prop) (a : A) :
  touches_only P (mret a).
Proof.
  intros s. split; cbn; auto.
  exists []. now rewrite app_nil_r.
Qed.

Lemma bind_run {A B : Type} (m : St A) (f : A -> St B) (s : Aging) :
  (m ≫= f) s = f (m s).1 (m s).2.
Proof. unfold mbind, St_bind. now destruct (m s). Qed.

Lemma touches_bind {A B : Type} (P : nat -> Prop) (m : St A) (f : A -> St B) :
  touches_only P m -> (forall a, touches_only P (f a)) ->
  touches_only P (m ≫= f).
Proof.
  intros Hm Hf s.
  destruct (Hm s) as [(w1 & Hw1 & HP1) Hd1 Hl1 Hr1 Hc1].
  destruct (Hf (m s).1 (m s).2) as [(w2 & Hw2 & HP2) Hd2 Hl2 Hr2 Hc2].
  split; rewrite bind_run.
  - exists (w1 ++ w2). rewrite Hw2, Hw1, app_assoc. split; [reflexivity|].
    apply Forall_app; auto.
  - intros j Hj. rewrite Hd2, Hd1; auto.
  - congruence.
  - congruence.
  - lia.
Qed.

Lemma touches_rd (P : nat -> Prop) (i : nat) : touches_only P (rd i).
Proof.
  intros s. split; cbn; auto.
  exists []. now rewrite app_nil_r.
Qed.

Lemma touches_random (P : nat -> Prop) : touches_only P Math_random.
Proof.
  intros s. split; cbn; auto.
  exists []. now rewrite app_nil_r.
Qed.

Lemma touches_wr (P : nat -> Prop) (i : nat) (v : number) :
  P i -> touches_only P (wr i v).
Proof.
  intros Hi s. split; cbn.
  - eexists. split; [reflexivity|]. repeat constructor. exact Hi.
  - intros j Hj. apply list_lookup_insert_ne. intros ->. contradiction.
  - apply length_insert.
  - reflexivity.
  - lia.
Qed.

Lemma touches_mono {A : Type} (P Q : nat -> Prop) (m : St A) :
  (forall j, P j -> Q j) -> touches_only P m -> touches_only Q m.
Proof.
  intros HPQ Hm s. destruct (Hm s) as [(w & Hw & HP) Hd Hl Hr Hc].
  split; [| |exact Hl|exact Hr|exact Hc].
  - exists w. split; [exact Hw|]. eapply Forall_impl; [exact HP|].
    intros e. apply HPQ.
  - intros j Hj. apply Hd. intros HPj. apply Hj, HPQ, HPj.
Qed.

(** Discharges [touches_only (pixel i) m] for straight-line code. *)
Ltac touches :=
  repeat first
    [ apply touches_ret
    | apply touches_rd
    | apply touches_random
    | apply touches_wr; unfold pixel; lia
    | apply touches_bind; [|intros ?]
    | match goal with
      | |- touches_only _ (if ?b then _ else _) => destruct b
      end ].

Lemma touches_globalFade (strength : number) (i : nat) :
  touches_only (pixel i) (globalFade strength i).
Proof. unfold globalFade. touches. Qed.

Lemma touches_grainNoise (strength : number) (i : nat) :
  touches_only (pixel i) (grainNoise strength i).
Proof. unfold grainNoise. touches. Qed.

Lemma touches_eraseAlpha (i : nat) : touches_only (pixel i) (eraseAlpha i).
Proof. unfold eraseAlpha. touches. Qed.

Lemma touches_darken (i : nat) : touches_only (pixel i) (darken i).
Proof. unfold darken. touches. Qed.

Lemma touches_edgeErosion (strength radius : number) (dist : root) (i : nat) :
  touches_only (pixel i) (edgeErosion strength radius dist i).
Proof.
  unfold edgeErosion. touches.
Qed.

Lemma touches_localFade (x y : number) (i : nat) (area : FadeArea) :
  touches_only (pixel i) (localFade x y i area).
Proof. unfold localFade. touches. Qed.

Lemma touches_forOf {A : Type} (P : nat -> Prop) (l : list A)
    (body : A -> St unit) :
  (forall a, touches_only P (body a)) -> touches_only P (forOf l body).
Proof.
  intros Hbody. induction l as [|a l IH]; cbn [forOf].
  - apply touches_ret.
  - apply touches_bind; [apply Hbody | intros _; exact IH].
Qed.

Lemma touches_alphaJitter (i : nat) : touches_only (pixel i) (alphaJitter i).
Proof. unfold alphaJitter. touches. Qed.

Lemma touches_agePixel (size strength : number) (fadeAreas : list FadeArea)
    (i : nat) :
  touches_only (pixel i) (agePixel size strength fadeAreas i).
Proof.
  unfold agePixel. cbv zeta.
  apply touches_bind; [apply touches_rd | intros a].
  destruct (a >? 0)%js; [|apply touches_ret].
  apply touches_bind; [apply touches_globalFade | intros _].
  apply touches_bind; [apply touches_grainNoise | intros _].
  apply touches_bind; [apply touches_edgeErosion | intros _].
  apply touches_bind; [|intros _; apply touches_alphaJitter].
  apply touches_forOf. intros area. apply touches_localFade.
Qed.

Lemma touches_newFadeArea (P : nat -> Prop) (cx cy radius : number) :
  touches_only P (newFadeArea cx cy radius).
Proof. unfold newFadeArea. touches. Qed.

(** ** Transparent pixels *)

(** The guard [data[i + 3] > 0]: on a pixel of alpha 0 the body of the loop
    does nothing at all. *)
Lemma agePixel_transparent (size strength : number)
    (fadeAreas : list FadeArea) (i : nat) (s : Aging) :
  data s !! (i + 3)%nat = Some 0%Z ->
  agePixel size strength fadeAreas i s = (tt, s).
Proof.
  intros Ha. unfold agePixel. cbv zeta. rewrite bind_run.
  unfold rd. cbn [fst snd]. rewrite Ha. reflexivity.
Qed.

Lemma pixelLoop_step (fuel : nat) (body : nat -> St unit) (i : nat)
    (s : Aging) :
  pixelLoop (S fuel) body i s
  = if (i <? List.length (data s))%nat
    then pixelLoop fuel body (i + 4)%nat (body i s).2
    else (tt, s).
Proof.
  cbn [pixelLoop]. destruct (i <? List.length (data s))%nat; [|reflexivity].
  now rewrite bind_run.
Qed.

(** The loop never writes to a pixel whose alpha is 0 when it starts. *)
Lemma pixelLoop_keeps_transparent (size strength : number)
    (fadeAreas : list FadeArea) (p : nat) (fuel : nat) :
  forall (k : nat) (s : Aging),
    data s !! (4 * p + 3)%nat = Some 0%Z ->
    let s' := (pixelLoop fuel (agePixel size strength fadeAreas) (4 * k) s).2 in
    (exists w, writes s' = writes s ++ w
               /\ Forall (fun e => ~ pixel (4 * p) e.1) w)
    /\ forall j, pixel (4 * p) j -> data s' !! j = data s !! j.
Proof.
  induction fuel as [|fuel IH]; intros k s Ha; cbv zeta.
  - cbn. split; [|auto]. exists []. now rewrite app_nil_r.
  - rewrite pixelLoop_step.
    destruct (4 * k <? List.length (data s))%nat.
    2:{ cbn. split; [|auto]. exists []. now rewrite app_nil_r. }
    replace (4 * k + 4)%nat with (4 * S k)%nat by lia.
    destruct (decide (k = p)) as [->|Hne].
    + rewrite agePixel_transparent by exact Ha. apply IH, Ha.
    + destruct (touches_agePixel size strength fadeAreas (4 * k) s)
        as [(w1 & Hw1 & HP1) Hd1 _ _ _].
      set (s2 := (agePixel size strength fadeAreas (4 * k) s).2) in *.
      assert (Hout : forall j, pixel (4 * p) j -> ~ pixel (4 * k) j)
        by (unfold pixel; lia).
      assert (Ha2 : data s2 !! (4 * p + 3)%nat = Some 0%Z).
      { rewrite Hd1; [exact Ha|]. apply Hout. unfold pixel. lia. }
      destruct (IH (S k) s2 Ha2) as [(w2 & Hw2 & HP2) Hd2]. split.
      * exists (w1 ++ w2). rewrite Hw2, Hw1, app_assoc.
        split; [reflexivity|]. apply Forall_app. split; [|exact HP2].
        eapply Forall_impl; [exact HP1|]. unfold pixel. cbn. lia.
      * intros j Hj. rewrite Hd2, Hd1; auto.
Qed.

(** C7.  Whatever the buffer, the size, the strength and the random draws,
    [addAgingEffect] makes no write to any of the four bytes of a pixel
    whose alpha is 0 before the pass, and leaves these four bytes as they
    were. *)
Theorem aging_keeps_transparent_pixels (size strength : number) (s : Aging)
    (p : nat) :
  data s !! (4 * p + 3)%nat = Some 0%Z ->
  let s' := (addAgingEffect size strength s).2 in
  (forall j, (4 * p <= j < 4 * p + 4)%nat -> data s' !! j = data s !! j)
  /\ exists w, writes s' = writes s ++ w
               /\ Forall (fun e => ~ (4 * p <= e.1 < 4 * p + 4)%nat) w.
Proof.
  intros Ha. cbv zeta. unfold addAgingEffect. cbv zeta.
  rewrite !bind_run.
  set (radius := (size / 2 - 20)%js). set (cx := (size / 2)%js).
  destruct (touches_newFadeArea (fun _ => False) cx cx radius s)
    as [(w1 & Hw1 & HP1) Hd1 _ _ _].
  set (s1 := (newFadeArea cx cx radius s).2) in *.
  set (area1 := (newFadeArea cx cx radius s).1).
  destruct (touches_newFadeArea (fun _ => False) cx cx radius s1)
    as [(w2 & Hw2 & HP2) Hd2 _ _ _].
  set (s2 := (newFadeArea cx cx radius s1).2) in *.
  set (area2 := (newFadeArea cx cx radius s1).1).
  assert (Hdata : forall j, data s2 !! j = data s !! j).
  { intros j. rewrite Hd2, Hd1; auto. }
  assert (Hnil : forall w, Forall (fun e : nat * Z => False) w -> w = []).
  { intros [|e w] Hw; [reflexivity|]. now inversion Hw. }
  apply Hnil in HP1, HP2. subst w1 w2. rewrite app_nil_r in Hw1, Hw2.
  unfold forPixels.
  destruct (pixelLoop_keeps_transparent size strength [area1; area2] p
              (S (List.length (data s2))) 0 s2) as [(w & Hw & HP) Hd].
  { rewrite Hdata. exact Ha. }
  change (4 * 0)%nat with 0%nat in Hw, Hd.
  split.
  - intros j Hj. rewrite Hd by exact Hj. apply Hdata.
  - exists w. split; [|exact HP]. rewrite Hw. congruence.
Qed.

Lemma aging_keeps_transparent_pixels_run :
  data two_pixels !! (4 * 0 + 3)%nat = Some 0%Z /\
  forall j, (4 * 0 <= j < 4 * 0 + 4)%nat ->
    data (addAgingEffect 2 0.13 two_pixels).2 !! j = data two_pixels !! j.
Proof.
  split; [reflexivity|].
  apply (aging_keeps_transparent_pixels 2 0.13 two_pixels 0 eq_refl).
Defined.

(** The loop ends by its own test: once the fuel covers the array, more
    fuel changes nothing. *)
Lemma pixelLoop_fuel (body : nat -> St unit) :
  (forall i s, List.length (data (body i s).2) = List.length (data s)) ->
  forall (f1 f2 i : nat) (s : Aging),
    (List.length (data s) + 4 <= i + 4 * f1)%nat -> (f1 <= f2)%nat ->
    pixelLoop f1 body i s = pixelLoop f2 body i s.
Proof.
  intros Hlen. induction f1 as [|f1 IH]; intros f2 i s Hfuel Hle.
  - destruct f2 as [|f2]; [reflexivity|]. rewrite pixelLoop_step.
    replace (i <? List.length (data s))%nat with false; [reflexivity|].
    symmetry. apply Nat.ltb_ge. lia.
  - destruct f2 as [|f2]; [lia|]. rewrite !pixelLoop_step.
    destruct (i <? List.length (data s))%nat; [|reflexivity].
    apply IH; [rewrite Hlen|]; lia.
Qed.

Lemma forPixels_fuel (size strength : number) (fadeAreas : list FadeArea)
    (extra : nat) (s : Aging) :
  forPixels (agePixel size strength fadeAreas) s
  = pixelLoop (S (List.length (data s)) + extra)
      (agePixel size strength fadeAreas) 0 s.
Proof.
  unfold forPixels. apply pixelLoop_fuel; [|lia|lia].
  intros i s0. apply (touches_agePixel size strength fadeAreas i s0).
Qed.

(** ** Edge erosion *)

Lemma new_writes_app (s s' : Aging) (w : list (nat * Z)) :
  writes s' = writes s ++ w -> new_writes s s' = w.
Proof. intros Hw. unfold new_writes. rewrite Hw. apply drop_app_length. Qed.

(** The writes of the edge erosion, by the outcome of its tests. *)
Lemma edgeErosion_writes (strength radius : number) (dist : root) (i : nat)
    (s : Aging) :
  let s' := (edgeErosion strength radius dist i s).2 in
  if in_band radius dist then
    if (draw0 s <? 0.13 * strength)%js then
      exists v, new_writes s s' = [((i + 3)%nat, v)]
    else if (draw1 s <? 0.18 * strength)%js then
      exists v1 v2 v3,
        new_writes s s' = [(i, v1); ((i + 1)%nat, v2); ((i + 2)%nat, v3)]
    else new_writes s s' = []
  else new_writes s s' = [].
Proof.
  cbv zeta. unfold edgeErosion, in_band, draw0, draw1.
  destruct (root_gt dist (radius - 8) && root_lt dist (radius + 8)).
  2:{ apply new_writes_app. cbn. now rewrite app_nil_r. }
  rewrite bind_run. cbn [Math_random fst snd].
  destruct (_ <? 0.13 * strength)%js.
  { eexists. apply new_writes_app.
    unfold eraseAlpha. rewrite !bind_run. cbn. reflexivity. }
  rewrite bind_run. cbn [Math_random fst snd rng cursor draws].
  destruct (_ <? 0.18 * strength)%js.
  { do 3 eexists. apply new_writes_app.
    unfold darken. rewrite !bind_run. cbn [wr rd fst snd writes].
    rewrite <- !app_assoc. reflexivity. }
  apply new_writes_app. cbn. now rewrite app_nil_r.
Qed.

(** Closes a goal from [H : In (j, v) l] when no write of [l] is at [j]. *)
Ltac absurd_write H :=
  exfalso; cbn in H;
  repeat match type of H with
         | _ \/ _ => destruct H as [H|H]; [inversion H; lia|]
         end;
  exact H.

(** C2 (as the code has it).  For a pixel in the erosion band the alpha
    erasure fires exactly when the first draw is below [0.13 * strength];
    the darkening check is made on a draw of its own, but only in the [else]
    branch: it fires exactly when the first draw is not below
    [0.13 * strength] and the second is below [0.18 * strength].  So either
    effect or neither may fire on a pixel, never both. *)
Theorem edge_erosion_exclusive (strength radius : number) (dist : root)
    (i : nat) (s : Aging) :
  in_band radius dist = true ->
  let s' := (edgeErosion strength radius dist i s).2 in
  (erasure_fired i s s' <-> (draw0 s <? 0.13 * strength)%js = true)
  /\ (darkening_fired i s s' <->
      (draw0 s <? 0.13 * strength)%js = false
      /\ (draw1 s <? 0.18 * strength)%js = true)
  /\ ~ (erasure_fired i s s' /\ darkening_fired i s s').
Proof.
  intros Hband. cbv zeta.
  pose proof (edgeErosion_writes strength radius dist i s) as Hw.
  cbv zeta in Hw. rewrite Hband in Hw.
  unfold erasure_fired, darkening_fired.
  destruct (draw0 s <? 0.13 * strength)%js.
  - destruct Hw as [v ->]. split; [|split].
    + split; [reflexivity|]. intros _. exists v. now left.
    + split; [|intros [Hf _]; discriminate].
      intros [v' Hin]. absurd_write Hin.
    + intros [_ [v' Hin]]. absurd_write Hin.
  - destruct (draw1 s <? 0.18 * strength)%js.
    + destruct Hw as (v1 & v2 & v3 & ->). split; [|split].
      * split; [|discriminate]. intros [v' Hin]. absurd_write Hin.
      * split; [now split|]. intros _. exists v1. now left.
      * intros [[v' Hin] _]. absurd_write Hin.
    + rewrite Hw. split; [|split].
      * split; [|discriminate]. intros [v' Hin]. absurd_write Hin.
      * split; [|intros [_ Hf]; discriminate].
        intros [v' Hin]. absurd_write Hin.
      * intros [[v' Hin] _]. absurd_write Hin.
Qed.

(** A pixel at distance 100 from the centre, the border radius being 100. *)
Lemma edge_erosion_exclusive_run :
  in_band 100 (Root (100 * 100)) = true /\
  ~ (erasure_fired 0 two_pixels (edgeErosion 1 100 (Root (100 * 100)) 0 two_pixels).2
     /\ darkening_fired 0 two_pixels
          (edgeErosion 1 100 (Root (100 * 100)) 0 two_pixels).2).
Proof.
  split; [reflexivity|].
  apply (edge_erosion_exclusive 1 100 (Root (100 * 100)) 0 two_pixels eq_refl).
Defined.

(** C2 (as stated) fails: there is no strength, radius, pixel, buffer and
    sequence of random draws for which the edge erosion fires both the alpha
    erasure and the darkening. *)
Lemma edge_erosion_never_both :
  ~ exists (strength radius : number) (dist : root) (i : nat) (s : Aging),
      erasure_fired i s (edgeErosion strength radius dist i s).2
      /\ darkening_fired i s (edgeErosion strength radius dist i s).2.
Proof.
  intros (strength & radius & dist & i & s & [v Hv] & [v' Hv']).
  pose proof (edgeErosion_writes strength radius dist i s) as Hw.
  cbv zeta in Hw.
  destruct (in_band radius dist).
  - destruct (draw0 s <? 0.13 * strength)%js.
    + destruct Hw as [w Hw]. rewrite Hw in Hv'. absurd_write Hv'.
    + destruct (draw1 s <? 0.18 * strength)%js.
      * destruct Hw as (v1 & v2 & v3 & Hw). rewrite Hw in Hv.
        absurd_write Hv.
      * rewrite Hw in Hv. absurd_write Hv.
  - rewrite Hw in Hv. absurd_write Hv.
Qed.

(** ** Bytes *)

Lemma ToUint8Clamp_neq (a b : number) :
  a =~ b -> ToUint8Clamp a = ToUint8Clamp b.
Proof.
  destruct a as [| | |p], b as [| | |q]; simpl; auto; try contradiction.
  intros E. rewrite (Qfloor_comp p q E).
  assert (E0 : Qle_bool p 0 = Qle_bool q 0) by now rewrite E.
  assert (E255 : Qle_bool 255 p = Qle_bool 255 q) by now rewrite E.
  assert (Ec : (p ?= inject_Z (Qfloor q) + 0.5)
               = (q ?= inject_Z (Qfloor q) + 0.5)) by now rewrite E.
  now rewrite E0, E255, Ec.
Qed.

Lemma ToUint8Clamp_range (v : number) : (0 <= ToUint8Clamp v <= 255)%Z.
Proof.
  destruct v as [| | |q]; simpl; try lia.
  destruct (Qle_bool q 0) eqn:E0; [lia|].
  destruct (Qle_bool 255 q) eqn:E255; [lia|].
  assert (H0 : 0 < q).
  { apply Qnot_le_lt. intros Hle. apply Qle_bool_iff in Hle. congruence. }
  assert (H255 : q < 255).
  { apply Qnot_le_lt. intros Hle. apply Qle_bool_iff in Hle. congruence. }
  assert (Hlo : (0 <= Qfloor q)%Z).
  { change 0%Z with (Qfloor 0). apply Qfloor_resp_le. now apply Qlt_le_weak. }
  assert (Hhi : (Qfloor q < 255)%Z).
  { rewrite Zlt_Qlt. eapply Qle_lt_trans; [apply Qfloor_le|exact H255]. }
  destruct (q ?= _); [destruct (Z.even _)| |]; lia.
Qed.

Lemma ToUint8Clamp_int (z : Z) :
  (0 <= z <= 255)%Z -> ToUint8Clamp (int z) = z.
Proof.
  intros Hz. unfold int, ToUint8Clamp.
  destruct (Qle_bool (inject_Z z) 0) eqn:E0.
  { apply Qle_bool_iff in E0. change 0 with (inject_Z 0) in E0.
    rewrite <- Zle_Qle in E0. lia. }
  destruct (Qle_bool 255 (inject_Z z)) eqn:E255.
  { apply Qle_bool_iff in E255. change 255 with (inject_Z 255) in E255.
    rewrite <- Zle_Qle in E255. lia. }
  rewrite Qfloor_Z.
  replace (inject_Z z ?= inject_Z z + 0.5) with Lt; [reflexivity|].
  symmetry. apply Qlt_alt. rewrite <- (Qplus_0_r (inject_Z z)) at 1.
  apply Qplus_lt_r. reflexivity.
Qed.

(** Clamping to [0, 255] keeps a value that is a byte already. *)
Lemma clamp_byte (x : number) (z : Z) :
  (0 <= z <= 255)%Z -> x =~ int z -> Math_max 0 (Math_min 255 x) =~ int z.
Proof.
  intros Hz Hx. destruct x as [| | |q]; try contradiction.
  unfold int in *. cbn [neq] in Hx.
  assert (H0 : 0 <= q).
  { rewrite Hx. change 0 with (inject_Z 0). rewrite <- Zle_Qle. lia. }
  assert (H255 : q <= 255).
  { rewrite Hx. change 255 with (inject_Z 255). rewrite <- Zle_Qle. lia. }
  unfold Math_min, Math_max, nlt.
  destruct (q ?= 255) eqn:E.
  - apply Qeq_alt in E. change (0 ?= 255) with Lt. cbn [neq].
    now rewrite <- E.
  - destruct (0 ?= q) eqn:E'; cbn [neq].
    + apply Qeq_alt in E'. now rewrite E'.
    + exact Hx.
    + apply Qgt_alt in E'. exfalso. apply (Qlt_not_le _ _ E' H0).
  - apply Qgt_alt in E. exfalso. apply (Qlt_not_le _ _ E H255).
Qed.

(** ** The bytes of one pixel through the steps *)

Lemma rd_at (j : nat) (v : Z) (s : Aging) :
  data s !! j = Some v -> rd j s = (int v, s).
Proof. intros Hv. unfold rd. now rewrite Hv. Qed.

Lemma wr_lookup_eq (j : nat) (v : number) (s : Aging) (old : Z) :
  data s !! j = Some old -> data (wr j v s).2 !! j = Some (ToUint8Clamp v).
Proof.
  intros Hold. cbn. apply list_lookup_insert_eq.
  now apply lookup_lt_Some in Hold.
Qed.

Lemma wr_lookup_ne (j k : nat) (v : number) (s : Aging) :
  j <> k -> data (wr j v s).2 !! k = data s !! k.
Proof. intros Hne. cbn. now apply list_lookup_insert_ne. Qed.

Lemma wr_red (s : Aging) (i : nat) (r g b a : Z) (v : number) :
  pixel_at s i r g b a -> pixel_at (wr i v s).2 i (ToUint8Clamp v) g b a.
Proof.
  intros (Hr & Hg & Hb & Ha). unfold pixel_at.
  rewrite (wr_lookup_eq _ _ _ _ Hr), !wr_lookup_ne by lia. auto.
Qed.

Lemma wr_green (s : Aging) (i : nat) (r g b a : Z) (v : number) :
  pixel_at s i r g b a ->
  pixel_at (wr (i + 1) v s).2 i r (ToUint8Clamp v) b a.
Proof.
  intros (Hr & Hg & Hb & Ha). unfold pixel_at.
  rewrite (wr_lookup_eq _ _ _ _ Hg), !wr_lookup_ne by lia. auto.
Qed.

Lemma wr_blue (s : Aging) (i : nat) (r g b a : Z) (v : number) :
  pixel_at s i r g b a ->
  pixel_at (wr (i + 2) v s).2 i r g (ToUint8Clamp v) a.
Proof.
  intros (Hr & Hg & Hb & Ha). unfold pixel_at.
  rewrite (wr_lookup_eq _ _ _ _ Hb), !wr_lookup_ne by lia. auto.
Qed.

Lemma wr_alpha (s : Aging) (i : nat) (r g b a : Z) (v : number) :
  pixel_at s i r g b a ->
  pixel_at (wr (i + 3) v s).2 i r g b (ToUint8Clamp v).
Proof.
  intros (Hr & Hg & Hb & Ha). unfold pixel_at.
  rewrite (wr_lookup_eq _ _ _ _ Ha), !wr_lookup_ne by lia. auto.
Qed.

(** Names the store after a write and records its pixel and its random
    source. *)
Ltac after_write lem P s' P' G' :=
  match goal with
  | |- context [(wr ?j ?v ?s).2] =>
      pose proof (lem s _ _ _ _ _ v P) as P';
      assert (G' : rng (wr j v s).2 = rng s) by reflexivity;
      set (s' := (wr j v s).2) in *; clearbody s'
  end.

(** Step 1 on a pixel. *)
Lemma globalFade_pixel (strength : number) (i : nat) (s : Aging)
    (r g b a : Z) :
  pixel_at s i r g b a ->
  pixel_at (globalFade strength i s).2 i
    (ToUint8Clamp (int r * (0.93 - strength * 0.2)))
    (ToUint8Clamp (int g * (0.93 - strength * 0.1)))
    (ToUint8Clamp (int b * (0.93 - strength * 0.1))) a
  /\ rng (globalFade strength i s).2 = rng s.
Proof.
  intros P0. unfold globalFade.
  rewrite bind_run, (rd_at i r s) by apply P0. cbn [fst snd].
  rewrite bind_run. after_write wr_red P0 s1 P1 G1.
  rewrite bind_run, (rd_at (i + 1) g s1) by apply P1. cbn [fst snd].
  rewrite bind_run. after_write wr_green P1 s2 P2 G2.
  rewrite bind_run, (rd_at (i + 2) b s2) by apply P2. cbn [fst snd].
  after_write wr_blue P2 s3 P3 G3.
  split; [exact P3|congruence].
Qed.

(** Step 2 on a pixel; [u] is the draw it takes. *)
Lemma grainNoise_pixel (strength : number) (i : nat) (s : Aging)
    (r g b a : Z) :
  pixel_at s i r g b a ->
  let noise := ((draw0 s - 0.5) * 255 * strength * 0.7)%js in
  let s' := (grainNoise strength i s).2 in
  pixel_at s' i
    (ToUint8Clamp (Math_max 0 (Math_min 255 (int r + noise))))
    (ToUint8Clamp (Math_max 0 (Math_min 255 (int g + noise * 0.5))))
    (ToUint8Clamp (Math_max 0 (Math_min 255 (int b + noise * 0.5)))) a
  /\ draws (rng s') = draws (rng s)
  /\ cursor (rng s') = S (cursor (rng s)).
Proof.
  intros P0. cbv zeta. unfold grainNoise.
  rewrite bind_run. cbv zeta.
  assert (Q0 : pixel_at (Math_random s).2 i r g b a) by exact P0.
  assert (D0 : draws (rng (Math_random s).2) = draws (rng s)) by reflexivity.
  assert (C0 : cursor (rng (Math_random s).2) = S (cursor (rng s)))
    by reflexivity.
  change (Math_random s).1 with (draw0 s).
  set (s0 := (Math_random s).2) in *. clearbody s0.
  rewrite bind_run, (rd_at i r s0) by apply Q0. cbn [fst snd].
  rewrite bind_run. after_write wr_red Q0 s1 P1 G1.
  rewrite bind_run, (rd_at (i + 1) g s1) by apply P1. cbn [fst snd].
  rewrite bind_run. after_write wr_green P1 s2 P2 G2.
  rewrite bind_run, (rd_at (i + 2) b s2) by apply P2. cbn [fst snd].
  after_write wr_blue P2 s3 P3 G3.
  split; [exact P3|]. rewrite G3, G2, G1. auto.
Qed.

(** Step 5 on a pixel. *)
Lemma alphaJitter_pixel (i : nat) (s : Aging) (r g b a : Z) :
  pixel_at s i r g b a ->
  let s' := (alphaJitter i s).2 in
  pixel_at s' i r g b
    (ToUint8Clamp
       (Math_max 0 (Math_min 255 (int a * (0.97 + draw0 s * 0.06))))).
Proof.
  intros P0. cbv zeta. unfold alphaJitter.
  rewrite bind_run, (rd_at (i + 3) a s) by apply P0. cbn [fst snd].
  rewrite bind_run.
  assert (Q0 : pixel_at (Math_random s).2 i r g b a) by exact P0.
  change (Math_random s).1 with (draw0 s).
  set (s0 := (Math_random s).2) in *. clearbody s0.
  apply (wr_alpha s0 i r g b a). exact Q0.
Qed.

(** ** The filter at strength 0 *)

(** At strength 0 no probability test can succeed. *)
Lemma zero_threshold (u q k : Q) :
  0 <= u -> q == 0 -> (Fin u <? Fin k * Fin q)%js = false.
Proof.
  intros Hu Hq. cbn [nmul nlt]. destruct (u ?= k * q) eqn:E; try reflexivity.
  apply Qlt_alt in E. rewrite Hq, Qmult_0_r in E.
  exfalso. apply (Qlt_not_le _ _ E Hu).
Qed.

Lemma noise_zero (u q : Q) :
  q == 0 -> ((Fin u - 0.5) * 255 * Fin q * 0.7)%js =~ Fin 0.
Proof. intros Hq. cbn. rewrite Hq. ring. Qed.

Lemma fade_zero (z : Z) (q k : Q) :
  q == 0 -> (int z * (0.93 - Fin q * Fin k))%js =~ (int z * 0.93)%js.
Proof. intros Hq. cbn. rewrite Hq. ring. Qed.

(** Adding a noise of 0 and clamping keeps a byte. *)
Lemma grain_zero_byte (v n : number) :
  n =~ Fin 0 ->
  ToUint8Clamp (Math_max 0 (Math_min 255 (int (ToUint8Clamp v) + n)))
  = ToUint8Clamp v.
Proof.
  intros Hn. pose proof (ToUint8Clamp_range v) as Hz.
  rewrite <- (ToUint8Clamp_int (ToUint8Clamp v) Hz) at 2.
  apply ToUint8Clamp_neq, clamp_byte; [exact Hz|].
  destruct n as [| | |x]; try contradiction. cbn in *. rewrite Hn. ring.
Qed.

Lemma edgeErosion_zero (q : Q) (radius : number) (dist : root) (i : nat)
    (s : Aging) :
  q == 0 -> valid_draws (rng s) ->
  data (edgeErosion (Fin q) radius dist i s).2 = data s
  /\ draws (rng (edgeErosion (Fin q) radius dist i s).2) = draws (rng s).
Proof.
  intros Hq Hv. unfold edgeErosion.
  destruct (root_gt dist (radius - 8) && root_lt dist (radius + 8));
    [|split; reflexivity].
  rewrite bind_run. cbn [Math_random fst snd].
  rewrite zero_threshold by (exact Hq || apply Hv).
  rewrite bind_run. cbn [Math_random fst snd rng cursor draws].
  rewrite zero_threshold by (exact Hq || apply Hv).
  split; reflexivity.
Qed.

(** Outside every ellipse, step 4 does nothing. *)
Lemma localFades_outside (x y : number) (i : nat) (areas : list FadeArea)
    (s : Aging) :
  (forall area, In area areas -> inside x y area = false) ->
  forOf areas (localFade x y i) s = (tt, s).
Proof.
  induction areas as [|area areas IH]; intros Hout; [reflexivity|].
  assert (Hskip : localFade x y i area = mret tt).
  { unfold localFade. now rewrite (Hout area) by now left. }
  cbn [forOf]. rewrite bind_run, Hskip. cbn [fst snd].
  apply IH. intros area' Hin. apply Hout. now right.
Qed.

Lemma pixel_at_data (s s' : Aging) (i : nat) (r g b a : Z) :
  data s' = data s -> pixel_at s i r g b a -> pixel_at s' i r g b a.
Proof. unfold pixel_at. now intros ->. Qed.

(** The body of the loop at strength 0, on a visible pixel outside the
    fade areas. *)
Lemma agePixel_zero (size : number) (q : Q) (fadeAreas : list FadeArea)
    (i : nat) (s : Aging) (r g b a : Z) :
  q == 0 -> valid_draws (rng s) -> pixel_at s i r g b a -> (0 < a)%Z ->
  (forall area, In area fadeAreas ->
     inside (pixel_x size i) (pixel_y size i) area = false) ->
  exists u : Q,
    (0 <= u /\ u < 1) /\
    pixel_at (agePixel size (Fin q) fadeAreas i s).2 i
      (ToUint8Clamp (int r * 0.93)) (ToUint8Clamp (int g * 0.93))
      (ToUint8Clamp (int b * 0.93))
      (ToUint8Clamp (Math_max 0 (Math_min 255 (int a * (0.97 + Fin u * 0.06))))).
Proof.
  intros Hq Hv P0 Ha Hout. unfold agePixel. cbv zeta.
  rewrite bind_run, (rd_at (i + 3) a s) by apply P0. cbn [fst snd].
  unfold ngt. change (Fin 0) with (int 0) at 1. rewrite int_lt.
  replace (0 <? a)%Z with true by (symmetry; apply Z.ltb_lt, Ha).
  rewrite bind_run.
  destruct (globalFade_pixel (Fin q) i s r g b a P0) as [P1 G1].
  set (s1 := (globalFade (Fin q) i s).2) in *. clearbody s1.
  rewrite bind_run.
  destruct (grainNoise_pixel (Fin q) i s1 _ _ _ _ P1) as (P2 & D2 & _).
  unfold draw0 in P2.
  set (u := draws (rng s1) (cursor (rng s1))) in P2.
  assert (N1 : ((Fin u - 0.5) * 255 * Fin q * 0.7)%js =~ Fin 0)
    by apply noise_zero, Hq.
  assert (N2 : ((Fin u - 0.5) * 255 * Fin q * 0.7 * 0.5)%js =~ Fin 0).
  { cbn. rewrite Hq. ring. }
  rewrite (grain_zero_byte _ _ N1), !(grain_zero_byte _ _ N2) in P2.
  clear N1 N2. clearbody u.
  set (s2 := (grainNoise (Fin q) i s1).2) in *. clearbody s2.
  assert (V2 : valid_draws (rng s2)).
  { unfold valid_draws. rewrite D2, G1. exact Hv. }
  rewrite bind_run.
  destruct (edgeErosion_zero q (size / 2 - 20)%js
              (Math_sqrt (npow2 (pixel_x size i - size / 2)
                          + npow2 (pixel_y size i - size / 2))) i s2 Hq V2)
    as [E3 D3].
  apply (pixel_at_data _ _ _ _ _ _ _ E3) in P2.
  set (s3 := (edgeErosion _ _ _ i s2).2) in *. clearbody s3.
  rewrite bind_run, localFades_outside by exact Hout. cbn [fst snd].
  exists (draws (rng s3) (cursor (rng s3))). split.
  - rewrite D3. apply V2.
  - pose proof (alphaJitter_pixel i s3 _ _ _ _ P2) as P4. cbv zeta in P4.
    unfold draw0 in P4.
    rewrite (ToUint8Clamp_neq _ _ (fade_zero r q 0.2 Hq)) in P4.
    rewrite (ToUint8Clamp_neq _ _ (fade_zero g q 0.1 Hq)) in P4.
    rewrite (ToUint8Clamp_neq _ _ (fade_zero b q 0.1 Hq)) in P4.
    exact P4.
Qed.

(** ** One pixel through the whole loop *)

Lemma frames_ext {A : Type} (P : nat -> Prop) (m m' : St A) (s : Aging) :
  m s = m' s -> frames P m' s -> frames P m s.
Proof.
  intros E [Hw Hd Hl Hr Hc]. split; rewrite E; assumption.
Qed.

(** From index [i] on, the loop touches no byte below [i]. *)
Lemma touches_pixelLoop (body : nat -> St unit) :
  (forall i, touches_only (pixel i) (body i)) ->
  forall (fuel i : nat),
    touches_only (fun j => (i <= j)%nat) (pixelLoop fuel body i).
Proof.
  intros Hbody. induction fuel as [|fuel IH]; intros i.
  - apply touches_ret.
  - intros s. destruct (i <? List.length (data s))%nat eqn:E.
    + apply (frames_ext _ _ (body i ≫= fun _ => pixelLoop fuel body (i + 4))).
      { cbn [pixelLoop]. now rewrite E. }
      apply touches_bind.
      * eapply touches_mono; [|apply Hbody]. unfold pixel. cbn. lia.
      * intros _. eapply touches_mono; [|apply IH]. cbn. lia.
    + apply (frames_ext _ _ (mret tt)).
      { cbn [pixelLoop]. now rewrite E. }
      apply touches_ret.
Qed.

(** The bytes of pixel [p] after the loop are those that the body of the
    loop computes for it, from a store in which the pixel is still as it was
    before the loop and the draws are the same. *)
Lemma pixelLoop_at (size strength : number) (fadeAreas : list FadeArea)
    (p : nat) (fuel : nat) :
  forall (k : nat) (s : Aging),
    (k <= p)%nat -> (p - k < fuel)%nat ->
    (4 * p + 3 < List.length (data s))%nat ->
    exists s1 : Aging,
      (forall j, pixel (4 * p) j -> data s1 !! j = data s !! j)
      /\ draws (rng s1) = draws (rng s)
      /\ forall j, pixel (4 * p) j ->
           data (pixelLoop fuel (agePixel size strength fadeAreas)
                   (4 * k) s).2 !! j
           = data (agePixel size strength fadeAreas (4 * p) s1).2 !! j.
Proof.
  induction fuel as [|fuel IH]; intros k s Hk Hfuel Hlen; [lia|].
  rewrite pixelLoop_step.
  replace (4 * k <? List.length (data s))%nat with true
    by (symmetry; apply Nat.ltb_lt; lia).
  replace (4 * k + 4)%nat with (4 * S k)%nat by lia.
  destruct (touches_agePixel size strength fadeAreas (4 * k) s)
    as [_ Hd1 Hl1 Hr1 _].
  set (s2 := (agePixel size strength fadeAreas (4 * k) s).2) in *.
  destruct (decide (k = p)) as [->|Hne].
  - exists s. split; [auto|]. split; [reflexivity|]. intros j Hj.
    apply (touches_pixelLoop _ (touches_agePixel size strength fadeAreas)
             fuel (4 * S p) s2).
    unfold pixel in Hj. lia.
  - destruct (IH (S k) s2) as (s1 & Hs1 & Hdr & Hres); [lia|lia|lia|].
    exists s1. split; [|split].
    + intros j Hj. rewrite Hs1 by exact Hj. apply Hd1.
      unfold pixel in *. lia.
    + congruence.
    + exact Hres.
Qed.

(** C10 (as the code has it).  At strength 0 the filter still changes a
    pixel of alpha > 0.  If the pixel lies outside both fade ellipses, its
    R, G and B bytes become [c * 0.93] rounded to a byte (grain noise and
    edge erosion add nothing) and its alpha byte becomes [a * f], clamped
    and rounded, for a random factor [f] in [0.97, 1.03).  Pixels inside a
    fade ellipse are not covered: the local fade does not depend on the
    strength. *)
Theorem zero_strength_pixel (size : number) (q : Q) (s : Aging) (p : nat)
    (r g b a : Z) :
  q == 0 -> valid_draws (rng s) -> pixel_at s (4 * p) r g b a -> (0 < a)%Z ->
  (forall area, In area (fadeAreas_of size s) ->
     inside (pixel_x size (4 * p)) (pixel_y size (4 * p)) area = false) ->
  exists f : Q,
    (0.97 <= f /\ f < 1.03) /\
    pixel_at (addAgingEffect size (Fin q) s).2 (4 * p)
      (ToUint8Clamp (int r * 0.93)) (ToUint8Clamp (int g * 0.93))
      (ToUint8Clamp (int b * 0.93))
      (ToUint8Clamp (Math_max 0 (Math_min 255 (int a * Fin f)))).
Proof.
  intros Hq Hv P0 Ha Hout.
  unfold addAgingEffect, fadeAreas_of in *. cbv zeta in *.
  rewrite !bind_run.
  set (radius := (size / 2 - 20)%js) in *. set (cx := (size / 2)%js) in *.
  destruct (touches_newFadeArea (fun _ => False) cx cx radius s)
    as [_ Hd1 _ Hr1 _].
  set (sa := (newFadeArea cx cx radius s).2) in *.
  set (area1 := (newFadeArea cx cx radius s).1) in *.
  destruct (touches_newFadeArea (fun _ => False) cx cx radius sa)
    as [_ Hd2 _ Hr2 _].
  set (sb := (newFadeArea cx cx radius sa).2) in *.
  set (area2 := (newFadeArea cx cx radius sa).1) in *.
  clearbody sa sb area1 area2.
  assert (Hdata : forall j, data sb !! j = data s !! j).
  { intros j. rewrite Hd2, Hd1; auto. }
  assert (Hlen : (4 * p + 3 < List.length (data sb))%nat).
  { destruct P0 as (_ & _ & _ & Hal). rewrite <- Hdata in Hal.
    now apply lookup_lt_Some in Hal. }
  unfold forPixels.
  destruct (pixelLoop_at size (Fin q) [area1; area2] p
              (S (List.length (data sb))) 0 sb) as (s1 & Hs1 & Hdr & Hres);
    [lia|lia|exact Hlen|].
  change (4 * 0)%nat with 0%nat in Hres.
  assert (P1 : pixel_at s1 (4 * p) r g b a).
  { unfold pixel_at in *. rewrite !Hs1, !Hdata by (unfold pixel; lia).
    exact P0. }
  assert (V1 : valid_draws (rng s1)).
  { unfold valid_draws. rewrite Hdr, Hr2, Hr1. exact Hv. }
  destruct (agePixel_zero size q [area1; area2] (4 * p) s1 r g b a
              Hq V1 P1 Ha Hout) as (u & [Hu0 Hu1] & P2).
  exists (0.97 + u * 0.06)%Q. split.
  - split.
    + rewrite <- (Qplus_0_r 0.97) at 1. apply Qplus_le_r.
      apply Qmult_le_0_compat; [exact Hu0|discriminate].
    + apply Qlt_le_trans with (0.97 + 1 * 0.06)%Q; [|discriminate].
      apply Qplus_lt_r. apply Qmult_lt_r; [reflexivity|exact Hu1].
  - unfold pixel_at in *. rewrite !Hres by (unfold pixel; lia). exact P2.
Qed.

(** The corner pixel of [canvas40] lies outside both fade ellipses. *)
Lemma zero_strength_pixel_corner :
  (0 == 0
   /\ valid_draws (rng canvas40)
   /\ pixel_at canvas40 (4 * 0) 200 100 50 255
   /\ (0 < 255)%Z
   /\ forall area, In area (fadeAreas_of 40 canvas40) ->
        inside (pixel_x 40 (4 * 0)) (pixel_y 40 (4 * 0)) area = false)
  /\ exists f : Q,
       (0.97 <= f /\ f < 1.03) /\
       pixel_at (addAgingEffect 40 (Fin 0) canvas40).2 (4 * 0)
         (ToUint8Clamp (int 200 * 0.93)) (ToUint8Clamp (int 100 * 0.93))
         (ToUint8Clamp (int 50 * 0.93))
         (ToUint8Clamp (Math_max 0 (Math_min 255 (int 255 * Fin f)))).
Proof.
  assert (Hq : 0 == 0) by reflexivity.
  assert (Hv : valid_draws (rng canvas40)).
  { intros n. split; [discriminate|reflexivity]. }
  assert (Hp : pixel_at canvas40 (4 * 0) 200 100 50 255).
  { repeat split. }
  assert (Ha : (0 < 255)%Z) by lia.
  assert (Hout : forall area, In area (fadeAreas_of 40 canvas40) ->
            inside (pixel_x 40 (4 * 0)) (pixel_y 40 (4 * 0)) area = false).
  { intros area [<-|[<-|[]]]; vm_compute; reflexivity. }
  split; [auto|].
  exact (zero_strength_pixel 40 0 canvas40 0 200 100 50 255 Hq Hv Hp Ha Hout).
Defined.

(** C10 (as stated) fails: at strength 0, on a 2 x 2 canvas, the first
    pixel (alpha 255) lies inside both fade ellipses, and its R, G, B bytes
    200, 100, 50 do not become 186, 93, 46 (their products by 0.93) but 67,
    34, 17: the local fade contributes at strength 0. *)
Lemma zero_strength_local_fade :
  valid_draws (rng canvas2)
  /\ pixel_at canvas2 0 200 100 50 255
  /\ ToUint8Clamp (int 200 * 0.93) = 186%Z
  /\ ToUint8Clamp (int 100 * 0.93) = 93%Z
  /\ ToUint8Clamp (int 50 * 0.93) = 46%Z
  /\ Forall (fun area => inside (pixel_x 2 0) (pixel_y 2 0) area = true)
       (fadeAreas_of 2 canvas2)
  /\ pixel_at (addAgingEffect 2 (Fin 0) canvas2).2 0 67 34 17 230.
Proof.
  split; [intros n; split; [discriminate|reflexivity]|].
  split; [repeat split|]. split; [reflexivity|]. split; [reflexivity|].
  split; [reflexivity|]. split.
  - repeat constructor.
  - vm_compute. repeat split.
Qed.

(** * Further properties *)

(** ** The constructor's result *)

Lemma or_default_is_truthy {A : Type} `{ToBoolean A} (given : option A)
    (d : A) :
  to_boolean d = true -> to_boolean (or_default given d) = true.
Proof.
  intros Hd. unfold or_default. destruct given as [x|]; [|exact Hd].
  destruct (to_boolean x) eqn:Hx; [exact Hx|exact Hd].
Qed.

Lemma or_default_again {A : Type} `{ToBoolean A} (given : option A) (d : A) :
  or_default (Some (or_default given d)) d = or_default given d.
Proof.
  unfold or_default. destruct given as [x|].
  - destruct (to_boolean x) eqn:Hx; [now rewrite Hx|].
    now destruct (to_boolean d).
  - now destruct (to_boolean d).
Qed.

(** The resolved configuration never holds a falsy value in a field that
    has a truthy default: no empty colour, company or title, and no 0 or
    [NaN] for the sizes, the opacity, the border width, the ratios and the
    star angle; the rotation may be 0 but is never [NaN]. *)
Theorem resolved_options_truthy (o : SealOptions.t) :
  let this := SealGenerator o in
  truthy (Options.size this) = true
  /\ Options.color this <> []
  /\ Options.company this <> []
  /\ Options.title this <> []
  /\ truthy (Options.starSize this) = true
  /\ truthy (Options.companyFontSize this) = true
  /\ truthy (Options.titleFontSize this) = true
  /\ Options.rotation this <> NaN
  /\ truthy (Options.opacity this) = true
  /\ truthy (Options.borderWidth this) = true
  /\ truthy (Options.companyRadiusRatio this) = true
  /\ truthy (Options.titleRadiusRatio this) = true
  /\ truthy (Options.starBottomAngle this) = true.
Proof.
  assert (Hstr : forall (given : option JSString) (d : JSString),
             d <> [] -> or_default given d <> []).
  { intros given d Hd E.
    assert (Ht : to_boolean (or_default given d) = true).
    { apply or_default_is_truthy. now destruct d. }
    rewrite E in Ht. discriminate. }
  cbv zeta. unfold SealGenerator.
  cbn [Options.size Options.color Options.company Options.title
       Options.starSize Options.companyFontSize Options.titleFontSize
       Options.rotation Options.opacity Options.borderWidth
       Options.companyRadiusRatio Options.titleRadiusRatio
       Options.starBottomAngle].
  repeat match goal with
         | |- _ /\ _ => split
         | |- truthy _ = true =>
             apply (or_default_is_truthy (A := number)); reflexivity
         | |- or_default _ _ <> [] => apply Hstr; discriminate
         end.
  unfold or_default. destruct (SealOptions.rotation o) as [[| | |q]|];
    cbn; try discriminate. destruct (negb (Qeq_bool q 0)); discriminate.
Qed.

(** Resolving a resolved configuration again changes nothing. *)
Theorem constructor_idempotent (o : SealOptions.t) :
  SealGenerator (as_options (SealGenerator o)) = SealGenerator o.
Proof.
  unfold SealGenerator, as_options.
  cbn [SealOptions.size SealOptions.color SealOptions.company
       SealOptions.title SealOptions.starSize SealOptions.companyFontSize
       SealOptions.titleFontSize SealOptions.rotation SealOptions.opacity
       SealOptions.borderWidth SealOptions.borderStyle
       SealOptions.companyRadiusRatio SealOptions.titleRadiusRatio
       SealOptions.starBottomAngle SealOptions.showInnerCircle
       SealOptions.aging SealOptions.agingStrength
       Options.size Options.color Options.company Options.title
       Options.starSize Options.companyFontSize Options.titleFontSize
       Options.rotation Options.opacity Options.borderWidth
       Options.borderStyle Options.companyRadiusRatio
       Options.titleRadiusRatio Options.starBottomAngle
       Options.showInnerCircle Options.aging Options.agingStrength].
  rewrite !or_default_again. reflexivity.
Qed.

(** ** The stages of [generate] *)

Section Stages.
Context `{MathLib}.

(** The setup of [generate]: one [clearRect], then the global state. *)
Lemma paint_setup (this : Options.t) :
  let size := Options.size this in
  rotate ((Options.rotation this * Math_PI) / 180)
    (translate (size / 2) (size / 2)
       (set_globalAlpha (Options.opacity this)
          (clearRect 0 0 size size new_ctx)))
  = mkCtx (baseState this) [] [] [ClearRect 0 0 size size].
Proof.
  cbv zeta. unfold new_ctx, baseState, globalTransform, radians,
    initial_state. ctx_eval. reflexivity.
Qed.

(** [drawStar]: the glyph is filled, then outlined, and the drawing state
    is put back. *)
Lemma drawStar_run (x y size : number) (color : JSString) (c : Ctx) :
  drawStar x y size color c
  = mkCtx (state c) (saved c) (path c)
      (calls c ++ starCalls x y size color (state c)).
Proof.
  destruct c as [st sv pa cl].
  unfold drawStar, starCalls, starFillState, starStrokeState. ctx_eval.
  rewrite <- app_assoc. reflexivity.
Qed.

Lemma drawCompanyName_run (text : JSString) (radius fontSize : number)
    (color : JSString) (radiusRatio : number) (c : Ctx) :
  state (drawCompanyName text radius fontSize color radiusRatio c)
  = companyState fontSize color (state c)
  /\ saved (drawCompanyName text radius fontSize color radiusRatio c)
     = saved c.
Proof.
  unfold drawCompanyName. cbv beta zeta delta [seq_ctx].
  rewrite forEach_glyphs. destruct c as [st sv pa cl].
  ctx_eval. split; reflexivity.
Qed.

Lemma drawTitle_run (text : JSString) (radius fontSize : number)
    (color : JSString) (radiusRatio : number) (c : Ctx) :
  state (drawTitle text radius fontSize color radiusRatio c)
  = titleState fontSize color (state c)
  /\ saved (drawTitle text radius fontSize color radiusRatio c) = saved c.
Proof.
  destruct c as [st sv pa cl]. unfold drawTitle. ctx_eval.
  split; reflexivity.
Qed.

(** The context handed to [drawCompanyName]. *)
Lemma paintHead_run (this : Options.t) :
  let radius := (Options.size this / 2 - 20)%js in
  let color := Options.color this in
  let base := baseState this in
  calls (paintHead this)
  = ClearRect 0 0 (Options.size this) (Options.size this)
    :: outerCalls radius color (Options.borderWidth this)
         (Options.borderStyle this) base
    ++ innerCalls this radius color (Options.borderWidth this) base
    ++ starCalls 0 0 (Options.starSize this) color base
  /\ state (paintHead this) = base
  /\ saved (paintHead this) = [].
Proof.
  cbv zeta. unfold paintHead. cbv beta zeta delta [seq_ctx].
  rewrite (paint_setup this), drawStar_run.
  set (c0 := mkCtx (baseState this) [] []
               [ClearRect 0 0 (Options.size this) (Options.size this)]).
  destruct (drawBorder_calls this (Options.size this / 2 - 20)%js
              (Options.color this) (Options.borderWidth this)
              (Options.borderStyle this) c0) as (Hc & Hs & Hv).
  cbn [calls state saved]. rewrite Hc, Hs, Hv. subst c0.
  cbn [calls state saved].
  rewrite <- !app_assoc. repeat split; reflexivity.
Qed.

(** All the calls of the drawing part of [generate], the state it leaves
    and its save stack. *)
Lemma paint_run (this : Options.t) :
  let radius := (Options.size this / 2 - 20)%js in
  let color := Options.color this in
  let base := baseState this in
  let s0 := companyState (Options.companyFontSize this) color base in
  calls (paint this)
  = ClearRect 0 0 (Options.size this) (Options.size this)
    :: outerCalls radius color (Options.borderWidth this)
         (Options.borderStyle this) base
    ++ innerCalls this radius color (Options.borderWidth this) base
    ++ starCalls 0 0 (Options.starSize this) color base
    ++ List.concat
         (imap (glyphCalls radius (Options.companyRadiusRatio this)
                  (angleStep_of (split_chars (Options.company this)))
                  color s0) (Options.company this))
    ++ [FillText (Options.title this) 0
          (radius * Options.titleRadiusRatio this)%js
          (titleState (Options.titleFontSize this) color s0)]
  /\ state (paint this) = titleState (Options.titleFontSize this) color s0
  /\ saved (paint this) = [].
Proof.
  cbv zeta. destruct (paintHead_run this) as (Hc & Hs & Hv). cbv zeta in Hc.
  rewrite paint_stages.
  destruct (drawTitle_run (Options.title this)
              (Options.size this / 2 - 20)%js (Options.titleFontSize this)
              (Options.color this) (Options.titleRadiusRatio this)
              (paintCompany this)) as [Hts Htv].
  rewrite drawTitle_calls, Hts, Htv. unfold paintCompany.
  destruct (drawCompanyName_run (Options.company this)
              (Options.size this / 2 - 20)%js (Options.companyFontSize this)
              (Options.color this) (Options.companyRadiusRatio this)
              (paintHead this)) as [Hcs Hcv].
  rewrite drawCompanyName_calls, Hcs, Hcv, Hc, Hs, Hv.
  cbn [app]. rewrite <- !app_assoc. repeat split; reflexivity.
Qed.

End Stages.

(** ** Lists of calls built glyph by glyph *)

Lemma Forall_concat_imap {A B : Type} (P : B -> Prop) (l : list A) :
  forall g : nat -> A -> list B,
    (forall i a, Forall P (g i a)) -> Forall P (List.concat (imap g l)).
Proof.
  induction l as [|a l IH]; intros g Hg; cbn [imap List.concat].
  - constructor.
  - apply Forall_app. split; [apply Hg|]. apply IH. intros i b. apply Hg.
Qed.

Lemma filter_concat_imap {A B : Type} (f : B -> bool) (l : list A) :
  forall g : nat -> A -> list B,
    List.filter f (List.concat (imap g l))
    = List.concat (imap (fun i a => List.filter f (g i a)) l).
Proof.
  induction l as [|a l IH]; intros g; cbn [imap List.concat]; [reflexivity|].
  rewrite List.filter_app, IH. reflexivity.
Qed.

Lemma length_concat_imap {A B : Type} (n : nat) (l : list A) :
  forall g : nat -> A -> list B,
    (forall i a, List.length (g i a) = n) ->
    List.length (List.concat (imap g l)) = (n * List.length l)%nat.
Proof.
  induction l as [|a l IH]; intros g Hg; cbn [imap List.concat List.length].
  - lia.
  - rewrite length_app, Hg, IH by (intros; apply Hg). lia.
Qed.

Lemma map_concat_imap {A B C : Type} (f : B -> C) (l : list A) :
  forall g : nat -> A -> list B,
    map f (List.concat (imap g l))
    = List.concat (imap (fun i a => map f (g i a)) l).
Proof.
  induction l as [|a l IH]; intros g; cbn [imap List.concat]; [reflexivity|].
  rewrite map_app, IH. reflexivity.
Qed.

Lemma concat_imap_const {A B : Type} (h : A -> list B) (l : list A) :
  forall g : nat -> A -> list B,
    (forall i a, g i a = h a) ->
    List.concat (imap g l) = flat_map h l.
Proof.
  induction l as [|a l IH]; intros g Hg; cbn [imap List.concat flat_map].
  - reflexivity.
  - rewrite Hg, (IH (g ∘ S)) by (intros; apply Hg). reflexivity.
Qed.

Section Rendering.
Context `{MathLib}.

(** The draw order of [generate]: one [clearRect]; the strokes of the outer
    border (one circle, or 36 dashes); the inner circle if it is enabled;
    the star, filled then outlined; the company name, each code unit stroked
    then filled; the title, filled. *)
Theorem paint_draw_order (this : Options.t) :
  let radius := (Options.size this / 2 - 20)%js in
  let color := Options.color this in
  let base := baseState this in
  let s0 := companyState (Options.companyFontSize this) color base in
  calls (paint this)
  = ClearRect 0 0 (Options.size this) (Options.size this)
    :: outerCalls radius color (Options.borderWidth this)
         (Options.borderStyle this) base
    ++ innerCalls this radius color (Options.borderWidth this) base
    ++ starCalls 0 0 (Options.starSize this) color base
    ++ List.concat
         (imap (glyphCalls radius (Options.companyRadiusRatio this)
                  (angleStep_of (split_chars (Options.company this)))
                  color s0) (Options.company this))
    ++ [FillText (Options.title this) 0
          (radius * Options.titleRadiusRatio this)%js
          (titleState (Options.titleFontSize this) color s0)].
Proof. cbv zeta. apply (paint_run this). Qed.

(** Every draw call of [generate] other than the initial [clearRect] is
    issued with the configured opacity as global alpha and inside the global
    transformation (translation to the centre, then the rotation). *)
Theorem paint_calls_in_global_frame (this : Options.t) :
  Forall (fun d =>
            match call_state d with
            | None => d = ClearRect 0 0 (Options.size this) (Options.size this)
            | Some st =>
                globalAlpha st = Options.opacity this
                /\ exists rest, transform st = globalTransform this ++ rest
            end) (calls (paint this)).
Proof.
  destruct (paint_run this) as [Hc _]. cbv zeta in Hc. rewrite Hc. clear Hc.
  assert (Hnil : forall l : list Xform, exists rest, l = l ++ rest).
  { intros l. exists []. now rewrite app_nil_r. }
  constructor; [reflexivity|].
  repeat (apply Forall_app; split).
  - unfold outerCalls. destruct (Options.borderStyle this).
    + repeat constructor. apply Hnil.
    + apply Forall_map, Forall_forall. intros k _. cbn. split; [reflexivity|].
      apply Hnil.
  - unfold innerCalls. destruct (Options.showInnerCircle this);
      repeat constructor. apply Hnil.
  - unfold starCalls. repeat constructor; apply Hnil.
  - apply Forall_concat_imap. intros i u. unfold glyphCalls.
    repeat constructor; cbn; eexists; reflexivity.
  - repeat constructor. apply Hnil.
Qed.

(** After the drawing part of [generate] the save stack is empty: every
    [save] has met its [restore].  The state left behind is the global one,
    with the font, fill style, alignment and shadow that the title set. *)
Theorem paint_restores_state (this : Options.t) :
  saved (paint this) = []
  /\ transform (state (paint this)) = globalTransform this
  /\ globalAlpha (state (paint this)) = Options.opacity this
  /\ strokeStyle (state (paint this)) = strokeStyle initial_state
  /\ lineWidth (state (paint this)) = lineWidth initial_state
  /\ font (state (paint this))
     = mkFont false (Options.titleFontSize this) SimHei
  /\ shadowOffsetX (state (paint this)) = 1
  /\ shadowOffsetY (state (paint this)) = 1.
Proof.
  destruct (paint_run this) as (_ & -> & ->). cbv zeta. repeat split.
Qed.

(** [drawStar] fills the star with the configured colour under a shadow of
    blur 2, then outlines it in the fixed colour [#a00000] with a line of
    width 2 and no blur, both in bold at the star size; the drawing state and
    the save stack are as before. *)
Theorem star_filled_then_outlined (x y size : number) (color : JSString)
    (c : Ctx) :
  exists fs ss : DrawState,
    calls (drawStar x y size color c)
    = calls c ++ [FillText star x y fs; StrokeText star x y ss]
    /\ fillStyle fs = color /\ shadowBlur fs = 2
    /\ shadowColor fs = str "rgba(0, 0, 0, 0.12)"
    /\ strokeStyle ss = str "#a00000" /\ lineWidth ss = 2
    /\ shadowBlur ss = 0
    /\ font fs = mkFont true size SimHei /\ font ss = mkFont true size SimHei
    /\ transform fs = transform (state c)
    /\ transform ss = transform (state c)
    /\ state (drawStar x y size color c) = state c
    /\ saved (drawStar x y size color c) = saved c.
Proof.
  rewrite drawStar_run. do 2 eexists. repeat split.
Qed.

(** The number of calls of [generate] by kind: 1 or 36 strokes for the
    border plus 1 for the inner circle; 3 text calls plus 2 per code unit of
    the company name; and the [clearRect]. *)
Theorem paint_call_counts (this : Options.t) :
  let strokes :=
    ((match Options.borderStyle this with solid => 1 | dashed => 36 end)
     + (if Options.showInnerCircle this then 1 else 0))%nat in
  let texts := (3 + 2 * List.length (Options.company this))%nat in
  count_calls is_stroke (calls (paint this)) = strokes
  /\ count_calls is_text (calls (paint this)) = texts
  /\ List.length (calls (paint this)) = (1 + strokes + texts)%nat.
Proof.
  destruct (paint_run this) as [Hc _]. cbv zeta in Hc. cbv zeta.
  rewrite Hc. clear Hc. unfold count_calls.
  set (g := glyphCalls _ _ _ _ _).
  assert (Hgs : List.filter is_stroke
                  (List.concat (imap g (Options.company this))) = []).
  { rewrite filter_concat_imap.
    rewrite (concat_imap_const (fun _ => [])) by reflexivity.
    induction (Options.company this); [reflexivity|assumption]. }
  assert (Hgt : List.length (List.filter is_text
                   (List.concat (imap g (Options.company this))))
                = (2 * List.length (Options.company this))%nat).
  { rewrite filter_concat_imap. apply length_concat_imap. reflexivity. }
  assert (Hgl : List.length (List.concat (imap g (Options.company this)))
                = (2 * List.length (Options.company this))%nat).
  { apply length_concat_imap. reflexivity. }
  cbn [List.filter is_stroke is_text List.length].
  rewrite !List.filter_app, !length_app, Hgs, Hgt, Hgl.
  unfold outerCalls, innerCalls.
  destruct (Options.borderStyle this), (Options.showInnerCircle this);
    cbn; lia.
Qed.

(** Whatever the text, [drawCompanyName] draws its code units in order,
    each one stroked and then filled at the origin of its own frame, and
    nothing else. *)
Theorem company_name_spelled (text : JSString) (radius fontSize : number)
    (color : JSString) (radiusRatio : number) (c : Ctx) :
  exists glyphs : list DrawCall,
    calls (drawCompanyName text radius fontSize color radiusRatio c)
    = calls c ++ glyphs
    /\ map text_op glyphs = flat_map (fun u => [Stroked [u]; Filled [u]]) text
    /\ List.length glyphs = (2 * List.length text)%nat.
Proof.
  eexists. split; [apply drawCompanyName_calls|]. split.
  - rewrite map_concat_imap. apply concat_imap_const. reflexivity.
  - apply length_concat_imap. reflexivity.
Qed.

End Rendering.

(** ** The glyphs stay on the arc *)

(** For a company name of two characters or more every glyph angle is
    finite and lies between -210 and 30 degrees, and the angles increase
    with the index: the name runs clockwise over the top of the seal. *)
Theorem glyph_angles_on_arc (text : JSString) (i j : nat) :
  (2 <= List.length text)%nat ->
  (i < j)%nat -> (j < List.length text)%nat ->
  let theta := glyphDegrees startAngle (angleStep_of (split_chars text)) in
  exists a b : Q,
    theta i = Fin a /\ theta j = Fin b
    /\ -210 <= a /\ a < b /\ b <= 30.
Proof.
  intros Hn Hij Hj theta. unfold theta.
  rewrite (angleStep_finite text Hn), startAngle_value, !glyphDegrees_finite.
  set (d := (inject_Z (Z.of_nat (List.length text)) - 1)%Q).
  set (s := (240 / d)%Q).
  assert (Hd : 0 < d).
  { unfold d, Qlt, Qminus, Qplus, inject_Z. simpl. lia. }
  assert (Hsd : (s * d == 240)%Q).
  { unfold s. field. intros E. rewrite E in Hd. discriminate. }
  assert (Hs : 0 < s).
  { unfold s. apply Qlt_shift_div_l; [exact Hd|]. now rewrite Qmult_0_l. }
  assert (Hi : 0 <= inject_Z (Z.of_nat i)).
  { change 0 with (inject_Z 0). rewrite <- Zle_Qle. lia. }
  assert (Hlt : inject_Z (Z.of_nat i) < inject_Z (Z.of_nat j)).
  { rewrite <- Zlt_Qlt. lia. }
  assert (Hjd : inject_Z (Z.of_nat j) <= d).
  { unfold d, Qle, Qminus, Qplus, inject_Z. simpl. lia. }
  do 2 eexists. split; [reflexivity|]. split; [reflexivity|].
  assert (Hc : (- 90 + - (240 / 2) == -210)%Q) by reflexivity.
  set (c := (- 90 + - (240 / 2))%Q) in *.
  set (x := inject_Z (Z.of_nat i)) in *. set (y := inject_Z (Z.of_nat j)) in *.
  clearbody c x y d s.
  assert (H1 : (0 <= x * s)%Q).
  { apply Qmult_le_0_compat; [exact Hi|now apply Qlt_le_weak]. }
  assert (H2 : (x * s < y * s)%Q) by (apply Qmult_lt_compat_r; assumption).
  assert (H3 : (y * s <= d * s)%Q).
  { apply Qmult_le_compat_r; [exact Hjd|now apply Qlt_le_weak]. }
  rewrite Qmult_comm in Hsd.
  set (xs := (x * s)%Q) in *. set (ys := (y * s)%Q) in *.
  set (ds := (d * s)%Q) in *. clearbody xs ys ds.
  repeat split; Lqa.lra.
Qed.

(** The second and third glyphs of "ABC". *)
Lemma glyph_angles_on_arc_ABC :
  ((2 <= List.length (str "ABC"))%nat /\ (1 < 2)%nat
   /\ (2 < List.length (str "ABC"))%nat)
  /\ exists a b : Q,
       glyphDegrees startAngle (angleStep_of (split_chars (str "ABC"))) 1
       = Fin a
       /\ glyphDegrees startAngle (angleStep_of (split_chars (str "ABC"))) 2
          = Fin b
       /\ -210 <= a /\ a < b /\ b <= 30.
Proof.
  assert (Hn : (2 <= List.length (str "ABC"))%nat) by (cbn; lia).
  assert (Hij : (1 < 2)%nat) by lia.
  assert (Hj : (2 < List.length (str "ABC"))%nat) by (cbn; lia).
  split; [auto|].
  exact (glyph_angles_on_arc (str "ABC") 1 2 Hn Hij Hj).
Defined.

(** ** The aging filter keeps the shape of the buffer *)










(** The whole filter, as the steps it is made of. *)
Lemma addAgingEffect_run (size strength : number) (s : Aging) :
  let cx := (size / 2)%js in
  let radius := (size / 2 - 20)%js in
  let sa := (newFadeArea cx cx radius s).2 in
  let sb := (newFadeArea cx cx radius sa).2 in
  (addAgingEffect size strength s).2
  = (pixelLoop (S (List.length (data sb)))
       (agePixel size strength (fadeAreas_of size s)) 0 sb).2.
Proof.
  cbv zeta. unfold addAgingEffect, fadeAreas_of. cbv zeta.
  rewrite !bind_run. reflexivity.
Qed.

(** Generating a fade area takes five draws and touches nothing else. *)
Lemma newFadeArea_store (cx cy radius : number) (s : Aging) :
  (newFadeArea cx cy radius s).2
  = mkAging (data s) (mkRng (5 + cursor (rng s)) (draws (rng s))) (writes s).
Proof. reflexivity. Qed.



(** ** A transparent buffer *)

(** The guard of the loop body, also when the alpha byte is out of range. *)
Lemma agePixel_skip (size strength : number) (fadeAreas : list FadeArea)
    (i : nat) (s : Aging) :
  (forall v, data s !! (i + 3)%nat = Some v -> v = 0%Z) ->
  agePixel size strength fadeAreas i s = (tt, s).
Proof.
  intros Ha. unfold agePixel. cbv zeta. rewrite bind_run.
  unfold rd. cbn [fst snd].
  destruct (data s !! (i + 3)%nat) as [v|]; [|reflexivity].
  now rewrite (Ha v eq_refl).
Qed.

Lemma pixelLoop_skip (size strength : number) (fadeAreas : list FadeArea)
    (s : Aging) :
  all_transparent s ->
  forall fuel k : nat,
    pixelLoop fuel (agePixel size strength fadeAreas) (4 * k) s = (tt, s).
Proof.
  intros Hs. induction fuel as [|fuel IH]; intros k; [reflexivity|].
  rewrite pixelLoop_step. destruct (4 * k <? List.length (data s))%nat;
    [|reflexivity].
  rewrite agePixel_skip by apply Hs. cbn [snd].
  replace (4 * k + 4)%nat with (4 * S k)%nat by lia. apply IH.
Qed.

(** On a buffer without a visible pixel (all alpha bytes 0, or no pixel at
    all) [addAgingEffect] writes nothing and returns the buffer as it was;
    it still takes the ten draws of the two fade areas, and no more. *)
Theorem aging_of_transparent_buffer (size strength : number) (s : Aging) :
  all_transparent s ->
  (addAgingEffect size strength s).2
  = mkAging (data s) (mkRng (10 + cursor (rng s)) (draws (rng s))) (writes s).
Proof.
  intros Hs. rewrite addAgingEffect_run. cbv zeta. rewrite !newFadeArea_store.
  set (sb := mkAging _ _ _).
  assert (Hsb : all_transparent sb) by exact Hs.
  pose proof (pixelLoop_skip size strength (fadeAreas_of size s) sb Hsb
                (S (List.length (data sb))) 0) as Hrun.
  change (4 * 0)%nat with 0%nat in Hrun. rewrite Hrun. reflexivity.
Qed.

Lemma aging_of_transparent_buffer_run :
  all_transparent clear_pixels /\
  (addAgingEffect 2 0.13 clear_pixels).2
  = mkAging [10; 20; 30; 0; 200; 100; 50; 0]%Z (mkRng 13 (fun _ => 0.5)) [].
Proof.
  assert (Ht : all_transparent clear_pixels).
  { intros p v Hv. pose proof (lookup_lt_Some _ _ _ Hv) as Hlt.
    destruct p as [|[|p]]; [cbn in Hv; congruence..|cbn in Hlt; lia]. }
  split; [exact Ht|].
  apply (aging_of_transparent_buffer 2 0.13 clear_pixels Ht).
Defined.

(** ** A strength that is not a number *)

(** Black scaled by anything is stored as 0. *)
Lemma black_scaled (f : number) : ToUint8Clamp (int 0 * f) = 0%Z.
Proof.
  destruct f; reflexivity.
Qed.

Lemma edgeErosion_NaN (radius : number) (dist : root) (i : nat) (s : Aging) :
  data (edgeErosion NaN radius dist i s).2 = data s.
Proof.
  unfold edgeErosion.
  destruct (root_gt dist (radius - 8) && root_lt dist (radius + 8));
    reflexivity.
Qed.

(** Step 4 keeps a pixel black. *)
Lemma localFade_black (x y : number) (i : nat) (area : FadeArea) (s : Aging)
    (a : Z) :
  pixel_at s i 0 0 0 a ->
  exists a', pixel_at (localFade x y i area s).2 i 0 0 0 a'.
Proof.
  intros P0. unfold localFade.
  destruct (inside x y area); [|exists a; exact P0].
  rewrite bind_run, (rd_at i 0 s) by apply P0. cbn [fst snd].
  rewrite bind_run. after_write wr_red P0 s1 P1 G1.
  rewrite bind_run, (rd_at (i + 1) 0 s1) by apply P1. cbn [fst snd].
  rewrite bind_run. after_write wr_green P1 s2 P2 G2.
  rewrite bind_run, (rd_at (i + 2) 0 s2) by apply P2. cbn [fst snd].
  rewrite bind_run. after_write wr_blue P2 s3 P3 G3.
  rewrite !black_scaled in P3.
  rewrite bind_run, (rd_at (i + 3) a s3) by apply P3. cbn [fst snd].
  rewrite bind_run.
  assert (Q3 : pixel_at (Math_random s3).2 i 0 0 0 a) by exact P3.
  set (s4 := (Math_random s3).2) in *. set (u := (Math_random s3).1).
  clearbody s4 u.
  eexists. apply (wr_alpha s4 i 0 0 0 a). exact Q3.
Qed.

Lemma localFades_black (x y : number) (i : nat) (areas : list FadeArea) :
  forall (s : Aging) (a : Z),
    pixel_at s i 0 0 0 a ->
    exists a', pixel_at (forOf areas (localFade x y i) s).2 i 0 0 0 a'.
Proof.
  induction areas as [|area areas IH]; intros s a P0.
  - exists a. exact P0.
  - cbn [forOf]. rewrite bind_run.
    destruct (localFade_black x y i area s a P0) as [a1 P1].
    apply (IH _ a1 P1).
Qed.

(** The body of the loop at strength [NaN], on a visible pixel. *)
Lemma agePixel_NaN (size : number) (fadeAreas : list FadeArea) (i : nat)
    (s : Aging) (r g b a : Z) :
  pixel_at s i r g b a -> (0 < a)%Z ->
  exists a',
    pixel_at (agePixel size NaN fadeAreas i s).2 i 0 0 0 a'.
Proof.
  intros P0 Ha. unfold agePixel. cbv zeta.
  rewrite bind_run, (rd_at (i + 3) a s) by apply P0. cbn [fst snd].
  unfold ngt. change (Fin 0) with (int 0) at 1. rewrite int_lt.
  replace (0 <? a)%Z with true by (symmetry; apply Z.ltb_lt, Ha).
  rewrite bind_run.
  destruct (globalFade_pixel NaN i s r g b a P0) as [P1 _].
  set (s1 := (globalFade NaN i s).2) in *. clearbody s1.
  rewrite bind_run.
  destruct (grainNoise_pixel NaN i s1 _ _ _ _ P1) as (P2 & _ & _).
  set (s2 := (grainNoise NaN i s1).2) in *. clearbody s2.
  assert (P2' : pixel_at s2 i 0 0 0 a) by exact P2. clear P2.
  rewrite bind_run.
  apply (pixel_at_data _ _ _ _ _ _ _
           (edgeErosion_NaN (size / 2 - 20)%js
              (Math_sqrt (npow2 (pixel_x size i - size / 2)
                          + npow2 (pixel_y size i - size / 2))) i s2))
    in P2'.
  set (s3 := (edgeErosion _ _ _ i s2).2) in *. clearbody s3.
  rewrite bind_run.
  destruct (localFades_black (pixel_x size i) (pixel_y size i) i fadeAreas
              s3 a P2') as [a4 P4].
  set (s4 := (forOf fadeAreas _ s3).2) in *. clearbody s4.
  eexists. apply (alphaJitter_pixel i s4 0 0 0 a4 P4).
Qed.

(** [agingStrength] is not validated, and [NaN] blackens the seal: with
    the strength [NaN], [addAgingEffect] sets the R, G and B bytes of every
    pixel of alpha > 0 to 0, whatever the random draws. *)
Theorem aging_with_NaN_strength (size : number) (s : Aging) (p : nat)
    (r g b a : Z) :
  pixel_at s (4 * p) r g b a -> (0 < a)%Z ->
  exists a', pixel_at (addAgingEffect size NaN s).2 (4 * p) 0 0 0 a'.
Proof.
  intros P0 Ha. rewrite addAgingEffect_run. cbv zeta.
  rewrite !newFadeArea_store. set (sb := mkAging _ _ _).
  assert (Pb : pixel_at sb (4 * p) r g b a) by exact P0.
  assert (Hlen : (4 * p + 3 < List.length (data sb))%nat).
  { destruct Pb as (_ & _ & _ & Hal). now apply lookup_lt_Some in Hal. }
  destruct (pixelLoop_at size NaN (fadeAreas_of size s) p
              (S (List.length (data sb))) 0 sb) as (s1 & Hs1 & _ & Hres);
    [lia|lia|exact Hlen|].
  change (4 * 0)%nat with 0%nat in Hres.
  assert (P1 : pixel_at s1 (4 * p) r g b a).
  { unfold pixel_at in *. rewrite !Hs1 by (unfold pixel; lia). exact Pb. }
  destruct (agePixel_NaN size (fadeAreas_of size s) (4 * p) s1 r g b a P1 Ha)
    as [a' P2].
  exists a'. unfold pixel_at in *. rewrite !Hres by (unfold pixel; lia).
  exact P2.
Qed.

Lemma aging_with_NaN_strength_run :
  (pixel_at two_pixels (4 * 1) 200 100 50 255 /\ (0 < 255)%Z)
  /\ exists a', pixel_at (addAgingEffect 2 NaN two_pixels).2 (4 * 1) 0 0 0 a'.
Proof.
  assert (Hp : pixel_at two_pixels (4 * 1) 200 100 50 255) by repeat split.
  assert (Ha : (0 < 255)%Z) by lia.
  split; [auto|].
  exact (aging_with_NaN_strength 2 two_pixels 1 200 100 50 255 Hp Ha).
Defined.

(** ** The coordinates of a pixel *)

Lemma ndiv_nonzero (x y : Q) :
  ~ (y == 0)%Q -> (Fin x / Fin y)%js = Fin (x / y).
Proof.
  intros Hy. unfold ndiv, Qsign. destruct (y ?= 0)%Q eqn:E; try reflexivity.
  apply Qeq_alt in E. contradiction.
Qed.

(** On a canvas that is [w] pixels wide, the loop of [addAgingEffect]
    computes, for the byte index [4 * (y * w + x)] of the pixel in column
    [x < w] of row [y], the coordinates [x] and [y]. *)
Theorem pixel_coordinates (w x y : nat) :
  (x < w)%nat ->
  pixel_x (int (Z.of_nat w)) (4 * (y * w + x)) =~ int (Z.of_nat x)
  /\ pixel_y (int (Z.of_nat w)) (4 * (y * w + x)) = int (Z.of_nat y).
Proof.
  intros Hx. unfold pixel_x, pixel_y, int.
  set (W := inject_Z (Z.of_nat w)).
  set (a := (inject_Z (Z.of_nat (4 * (y * w + x))) / 4)%Q).
  assert (HW : (0 < W)%Q).
  { unfold W. change 0%Q with (inject_Z 0). rewrite <- Zlt_Qlt. lia. }
  assert (HW0 : ~ (W == 0)%Q).
  { intros E. rewrite E in HW. discriminate. }
  assert (Ha : (a == inject_Z (Z.of_nat y * Z.of_nat w + Z.of_nat x))%Q).
  { unfold a. replace (Z.of_nat (4 * (y * w + x)))
      with (4 * (Z.of_nat y * Z.of_nat w + Z.of_nat x))%Z by lia.
    rewrite inject_Z_mult. change (inject_Z 4) with 4%Q. field. }
  assert (Hfloor : Qfloor (a / W) = Z.of_nat y).
  { rewrite (Qfloor_comp (a / W)
               (inject_Z (Z.of_nat y * Z.of_nat w + Z.of_nat x) / W)%Q)
      by now rewrite Ha.
    unfold W. rewrite <- Zdiv_Qdiv, Z.div_add_l by lia.
    rewrite Z.div_small by lia. lia. }
  assert (Hpos : (0 <= a / W)%Q).
  { apply Qle_shift_div_l; [exact HW|]. rewrite Qmult_0_l, Ha.
    change 0%Q with (inject_Z 0). rewrite <- Zle_Qle. lia. }
  rewrite (ndiv_pos _ 4) by reflexivity. fold a. split.
  - unfold nmod, Qsign. apply Qgt_alt in HW. rewrite HW. cbn [neq].
    assert (Ht : Qtrunc (a / W) = Z.of_nat y).
    { unfold Qtrunc, Qsign. destruct (a / W ?= 0)%Q eqn:E; try exact Hfloor.
      apply Qlt_alt in E. exfalso. apply (Qlt_not_le _ _ E Hpos). }
    rewrite Ht, Ha. unfold W.
    rewrite inject_Z_plus, inject_Z_mult. ring.
  - rewrite ndiv_nonzero by exact HW0. cbn [Math_floor].
    now rewrite Hfloor.
Qed.

(** Column 1 of row 1 on a canvas 2 pixels wide: byte 12. *)
Lemma pixel_coordinates_run :
  (1 < 2)%nat /\ pixel_y (int 2) 12 = int 1.
Proof.
  split; [lia|]. apply (pixel_coordinates 2 1 1). lia.
Defined.

(** ** The names of a batch *)

Lemma split_on_no_sep (sep : N) (s : JSString) :
  forall piece, In piece (split_on sep s) -> ~ In sep piece.
Proof.
  induction s as [|u rest IH]; intros piece Hin; cbn [split_on] in Hin.
  - destruct Hin as [<-|[]]. intros [].
  - destruct (N.eqb u sep) eqn:E.
    + destruct Hin as [<-|Hin]; [intros []|now apply IH].
    + apply N.eqb_neq in E. destruct (split_on sep rest) as [|h t] eqn:Es.
      * destruct Hin as [<-|[]]. intros [->|[]]. congruence.
      * destruct Hin as [<-|Hin].
        -- intros [->|Hh]; [congruence|]. apply (IH h); [now left|exact Hh].
        -- apply IH. now right.
Qed.

Lemma split_on_Forall (P : N -> Prop) (sep : N) (s : JSString) :
  Forall P s -> forall piece, In piece (split_on sep s) -> Forall P piece.
Proof.
  induction 1 as [|u rest Hu Hrest IH]; intros piece Hin; cbn [split_on] in Hin.
  - destruct Hin as [<-|[]]. constructor.
  - destruct (N.eqb u sep).
    + destruct Hin as [<-|Hin]; [constructor|now apply IH].
    + destruct (split_on sep rest) as [|h t] eqn:Es.
      * destruct Hin as [<-|[]]. now repeat constructor.
      * destruct Hin as [<-|Hin].
        -- constructor; [exact Hu|]. apply IH. now left.
        -- apply IH. now right.
Qed.

Lemma trimStart_In (s : JSString) (u : N) : In u (trimStart s) -> In u s.
Proof.
  induction s as [|v rest IH]; cbn [trimStart]; [auto|].
  destruct (is_whitespace v); [|auto]. intros Hin. right. now apply IH.
Qed.

Lemma trimEnd_In (s : JSString) (u : N) : In u (trimEnd s) -> In u s.
Proof.
  induction s as [|v rest IH]; cbn [trimEnd]; [auto|].
  destruct (trimEnd rest) as [|k ks].
  - destruct (is_whitespace v); [intros []|]. intros [->|[]]. now left.
  - intros [->|Hin]; [now left|]. right. now apply IH.
Qed.

Lemma trimStart_head (s : JSString) (u : N) (rest : JSString) :
  trimStart s = u :: rest -> is_whitespace u = false.
Proof.
  induction s as [|v s IH]; cbn [trimStart]; [discriminate|].
  destruct (is_whitespace v) eqn:E; [exact IH|]. intros [= <- _]. exact E.
Qed.

Lemma trimEnd_head (u : N) (rest : JSString) :
  is_whitespace u = false -> head (trimEnd (u :: rest)) = Some u.
Proof.
  intros Hu. cbn [trimEnd]. destruct (trimEnd rest); [|reflexivity].
  now rewrite Hu.
Qed.

Lemma trimEnd_last (s : JSString) (u : N) :
  last (trimEnd s) = Some u -> is_whitespace u = false.
Proof.
  induction s as [|v rest IH]; cbn [trimEnd]; [discriminate|].
  destruct (trimEnd rest) as [|k ks].
  - destruct (is_whitespace v) eqn:E; [discriminate|].
    intros [= <-]. exact E.
  - intros Hlast. apply IH. exact Hlast.
Qed.

Lemma trimStart_blank (s : JSString) :
  Forall (fun u => is_whitespace u = true) s -> trimStart s = [].
Proof.
  induction 1 as [|u rest Hu _ IH]; [reflexivity|].
  cbn [trimStart]. now rewrite Hu.
Qed.

(** A name that passes [filter(Boolean)] is not the empty string. *)
Lemma parsed_names_nonempty (content name : JSString) :
  In name (parseCompanies content) ->
  name <> [] /\ exists piece, In piece (split_on comma content)
                              /\ name = trim piece.
Proof.
  unfold parseCompanies. intros Hin. apply List.filter_In in Hin.
  destruct Hin as [Hin Hne]. apply in_map_iff in Hin.
  destruct Hin as (piece & <- & Hpiece). split.
  - intros E. rewrite E in Hne. discriminate.
  - now exists piece.
Qed.

(** Every name that [main] takes from the file is non-empty, holds no comma
    and neither starts nor ends with white space. *)
Theorem parsed_names_clean (content name : JSString) :
  In name (parseCompanies content) ->
  name <> []
  /\ ~ In comma name
  /\ (exists u, head name = Some u /\ is_whitespace u = false)
  /\ (exists u, last name = Some u /\ is_whitespace u = false).
Proof.
  unfold parseCompanies. intros Hin. apply List.filter_In in Hin.
  destruct Hin as [Hin Hne]. apply in_map_iff in Hin.
  destruct Hin as (piece & <- & Hpiece).
  assert (Hnonempty : trim piece <> []).
  { intros E. rewrite E in Hne. discriminate. }
  split; [exact Hnonempty|]. split; [|split].
  - intros Hc. apply (split_on_no_sep comma content piece Hpiece).
    apply trimStart_In, trimEnd_In, Hc.
  - unfold trim in *. destruct (trimStart piece) as [|u rest] eqn:Es.
    + now contradiction Hnonempty.
    + exists u. pose proof (trimStart_head _ _ _ Es) as Hu.
      split; [now apply trimEnd_head|exact Hu].
  - unfold trim in *.
    destruct (last (trimEnd (trimStart piece))) as [u|] eqn:El.
    + exists u. split; [reflexivity|]. now apply (trimEnd_last _ _ El).
    + apply last_None in El. contradiction.
Qed.

Lemma parsed_names_clean_run :
  In (str "Acme") (parseCompanies (str " Acme ,, Foo Bar ,  "))
  /\ ~ In comma (str "Acme").
Proof.
  assert (Hin : In (str "Acme") (parseCompanies (str " Acme ,, Foo Bar ,  ")))
    by (vm_compute; now left).
  split; [exact Hin|].
  apply (parsed_names_clean _ _ Hin).
Defined.

(** A file of commas and white space holds no name. *)
Lemma parseCompanies_blank (content : JSString) :
  Forall (fun u => u = comma \/ is_whitespace u = true) content ->
  parseCompanies content = [].
Proof.
  intros Hblank. unfold parseCompanies.
  assert (Hall : Forall (fun piece => trim piece = [])
                   (split_on comma content)).
  { apply List.Forall_forall. intros piece Hin. unfold trim.
    rewrite trimStart_blank; [reflexivity|].
    pose proof (split_on_Forall _ comma content Hblank piece Hin) as Hp.
    pose proof (split_on_no_sep comma content piece Hin) as Hno.
    apply List.Forall_forall. intros u Hu.
    rewrite List.Forall_forall in Hp. destruct (Hp u Hu) as [->|Hw];
      [contradiction|exact Hw]. }
  induction Hall as [|piece pieces Hp _ IH]; [reflexivity|].
  cbn [map List.filter]. rewrite Hp. exact IH.
Qed.

(** ** The file names of a batch *)

Lemma lookup_map {A B : Type} (f : A -> B) (l : list A) (i : nat) :
  map f l !! i = option_map f (l !! i).
Proof.
  revert i. induction l as [|a l IH]; intros [|i]; cbn; auto.
Qed.

(** [safeName] keeps the length of the name and every code unit outside
    the class of its regular expression; the result holds no backslash,
    slash, colon, asterisk, question mark, double quote, angle bracket or
    bar, and sanitising it again changes nothing. *)
Theorem safeName_is_safe (company : JSString) :
  List.length (safeName company) = List.length company
  /\ Forall (fun u => is_replaced u = false) (safeName company)
  /\ safeName (safeName company) = safeName company
  /\ forall i u, company !! i = Some u -> is_replaced u = false ->
       safeName company !! i = Some u.
Proof.
  unfold safeName. split; [apply length_map|]. split; [|split].
  - apply List.Forall_map, List.Forall_forall. intros u _.
    destruct (is_replaced u) eqn:E; [reflexivity|exact E].
  - rewrite map_map. apply map_ext. intros u.
    destruct (is_replaced u) eqn:E; [reflexivity|now rewrite E].
  - intros i u Hu Hkeep.
    unfold JSString in *. rewrite lookup_map, Hu. cbn [option_map].
    now rewrite Hkeep.
Qed.

(** The regular expression of [safeName] names the letter s, not the white
    space class: every letter s of the name becomes an underscore, and no
    white space (blank, tab, line break, ideographic space, ...) is
    replaced. *)
Theorem safeName_replaces_s_keeps_space (company : JSString) (i : nat)
    (u : N) :
  company !! i = Some u ->
  (u = 0x73%N -> safeName company !! i = Some underscore)
  /\ (is_whitespace u = true -> safeName company !! i = Some u).
Proof.
  intros Hu. unfold safeName.
  unfold JSString in *. rewrite lookup_map, Hu. cbn [option_map]. split.
  - now intros ->.
  - intros Hw. replace (is_replaced u) with false; [reflexivity|].
    unfold is_whitespace, whitespace_units in Hw. cbn [existsb] in Hw.
    repeat (apply orb_prop in Hw;
            destruct Hw as [Hw|Hw]; [apply N.eqb_eq in Hw; now subst u|]).
    discriminate.
Qed.

Lemma safeName_replaces_s_keeps_space_run :
  str "a s" !! 1%nat = Some 0x20%N
  /\ safeName (str "a s") = str "a _".
Proof.
  split; [reflexivity|].
  destruct (safeName_replaces_s_keeps_space (str "a s") 1 0x20%N eq_refl)
    as [_ Hspace].
  specialize (Hspace eq_refl). vm_compute in Hspace. vm_compute. reflexivity.
Defined.

(** ** The runs of the batch driver *)

Lemma batchOptions_resolved (company : JSString) :
  company <> [] -> SealGenerator (batchOptions company) = batchConfig company.
Proof.
  destruct company as [|u rest]; [intros Hne; now contradiction Hne|].
  reflexivity.
Qed.

Section BatchRuns.
Context `{MathLib}.
Variable surface : number -> Ctx -> list Z.
Variable toBuffer : list Z -> list Byte.byte.
Variable path_join : JSString -> JSString.

Lemma generate_batch (company outputPath : JSString) (g : Rng) :
  company <> [] ->
  generate surface toBuffer (SealGenerator (batchOptions company)) outputPath g
  = batchFile surface toBuffer company outputPath g.
Proof.
  intros Hne. rewrite (batchOptions_resolved company Hne). reflexivity.
Qed.

Lemma forCompanies_run (companies : list JSString) (run : BatchRun) :
  Forall (fun company => company <> []) companies ->
  forCompanies surface toBuffer path_join companies run
  = mkBatchRun
      (run_files run
       ++ map (fun company =>
                 batchFile surface toBuffer company
                   (path_join (outputName company)) (run_rng run))
            companies)
      (run_console run
       ++ map (fun company =>
                 generated_message ++ path_join (outputName company))
            companies)
      (run_rng run).
Proof.
  intros Hall. revert run.
  induction Hall as [|company rest Hne _ IH]; intros run.
  - cbn [forCompanies map]. rewrite !app_nil_r. now destruct run.
  - cbn [forCompanies]. rewrite (generate_batch company _ _ Hne), IH.
    cbn [run_files run_console run_rng rng_after batchFile map].
    rewrite <- !app_assoc. reflexivity.
Qed.

(** When [1.txt] holds a name, [main] writes one file per name, in the
    order of the file, to [../output/<safeName>.png]; each is the seal
    painted with the name as it was parsed (the default name is never
    used), one line is logged per file, nothing else is written, and the
    random source is not used. *)
Theorem main_renders_each_name (content : JSString) (g : Rng) :
  parseCompanies content <> [] ->
  main surface toBuffer path_join (Some content) g
  = mkBatchRun
      (map (fun company =>
              batchFile surface toBuffer company
                (path_join (outputName company)) g)
         (parseCompanies content))
      (map (fun company =>
              generated_message ++ path_join (outputName company))
         (parseCompanies content))
      g.
Proof.
  intros Hnames. unfold main.
  destruct (parseCompanies content) as [|company rest] eqn:Ep;
    [now contradiction Hnames|].
  change (0 <? List.length (company :: rest))%nat with true. cbv iota.
  rewrite forCompanies_run; [reflexivity|].
  rewrite <- Ep. apply List.Forall_forall. intros name Hin.
  now destruct (parsed_names_nonempty content name Hin).
Qed.

(** When [1.txt] is missing, or holds nothing but commas and white space,
    [main] writes one file, [../output/default.png], the seal of the
    default name, logs one line and does not use the random source. *)
Theorem main_without_names (file : option JSString) (g : Rng) :
  blank_file file ->
  main surface toBuffer path_join file g
  = mkBatchRun
      [batchFile surface toBuffer fallback_company
         (path_join (str "../output/default.png")) g]
      [fallback_message ++ path_join (str "../output/default.png")]
      g.
Proof.
  intros Hblank. unfold main.
  assert (Hnone : match file with
                  | Some content => parseCompanies content
                  | None => []
                  end = []).
  { destruct file as [content|]; [|reflexivity].
    now apply parseCompanies_blank. }
  rewrite Hnone. cbn [List.length Nat.ltb Nat.leb].
  rewrite generate_batch by discriminate. reflexivity.
Qed.

End BatchRuns.

Lemma main_renders_each_name_run :
  parseCompanies (str " Acme ,, Foo Bar ,  ") <> []
  /\ map written_path
       (run_files
          (main (fun _ c => repeat 0%Z (List.length (calls c))) (fun _ => [])
             (fun p => p) (Some (str " Acme ,, Foo Bar ,  "))
             (mkRng 0 (fun _ => 0))))
     = [str "../output/Acme.png"; str "../output/Foo Bar.png"].
Proof.
  assert (Hne : parseCompanies (str " Acme ,, Foo Bar ,  ") <> [])
    by (vm_compute; discriminate).
  split; [exact Hne|].
  rewrite (main_renders_each_name
             (fun _ c => repeat 0%Z (List.length (calls c))) (fun _ => [])
             (fun p => p) _ (mkRng 0 (fun _ => 0)) Hne).
  cbn [run_files]. rewrite map_map. cbn [written_path batchFile].
  vm_compute. reflexivity.
Defined.

Lemma main_without_names_run :
  blank_file (Some (str " , ,, "))
  /\ map written_path
       (run_files
          (main (fun _ c => repeat 0%Z (List.length (calls c))) (fun _ => [])
             (fun p => p) (Some (str " , ,, ")) (mkRng 0 (fun _ => 0))))
     = [str "../output/default.png"].
Proof.
  assert (Hblank : blank_file (Some (str " , ,, "))).
  { cbn [blank_file].
    repeat first [apply List.Forall_nil
                 |apply List.Forall_cons; [first [now left|now right]|]]. }
  split; [exact Hblank|].
  rewrite (main_without_names
             (fun _ c => repeat 0%Z (List.length (calls c))) (fun _ => [])
             (fun p => p) _ (mkRng 0 (fun _ => 0)) Hblank).
  reflexivity.
Defined.
